(** * Android notification previewer: the helper functions of
    [notify_visualizer.py]

    The development embeds the four helpers the preview is built from,
    [_looks_like_svg], [fetch_image], [fit_cover] and [ellipsize], and states
    their contracts.

    - A Python [str] is a list of code points, [len] counts them.
    - A Python [float] is an IEEE 754 binary64 number, taken from the
      Standard Library's [SpecFloat] at precision 53.
    - Code that may raise returns a [res]; code that also talks to the
      network or to an image decoder runs in the monad [IO], which threads
      the log of the calls made to those collaborators.
    - Of Pillow, [resize] and [crop] are modelled with the errors they
      raise on a size below one pixel, on a box out of order and on a box
      beyond the pixel limit; the resampling routine, which may run out of
      memory, is a parameter. *)

From Stdlib Require Import ZArith NArith QArith Qround Qpower List Bool.
From Stdlib Require Import Lia Lqa.
From Stdlib Require Import String Ascii SpecFloat.
Import ListNotations.

Open Scope Z_scope.

(** ** Python values *)

(** A character is its Unicode code point. *)
Definition char := N.
Definition str := list char.
Definition bytes := list N.

(** A string literal, written in ASCII. *)
Fixpoint lit (s : string) : str :=
  match s with
  | EmptyString => []
  | String a s' => N_of_ascii a :: lit s'
  end.

Definition LF : char := 10%N.
Definition SPACE : char := 32%N.
(** U+2026 HORIZONTAL ELLIPSIS, the one character of the literal on lines
    120 and 121. *)
Definition ELLIPSIS : char := 8230%N.

Definition len {A} (s : list A) : Z := Z.of_nat (List.length s).

(** Truth value of a string: the empty string is false. *)
Definition truthy (s : str) : bool :=
  match s with
  | [] => false
  | _ :: _ => true
  end.

(** [a or b] on strings. *)
Definition str_or (a b : str) : str := if truthy a then a else b.

Definition str_eqb (a b : str) : bool :=
  if list_eq_dec N.eq_dec a b then true else false.

(** [str.isspace] on one character: the code points CPython's
    [_PyUnicode_IsWhitespace] accepts. *)
Definition isspace (c : char) : bool :=
  ((9 <=? c) && (c <=? 13) || (28 <=? c) && (c <=? 32)
   || (c =? 133) || (c =? 160) || (c =? 5760)
   || (8192 <=? c) && (c <=? 8202)
   || (c =? 8232) || (c =? 8233) || (c =? 8239) || (c =? 8287)
   || (c =? 12288))%N.

(** [s.lstrip()]: drop the leading whitespace. *)
Fixpoint lstrip (s : str) : str :=
  match s with
  | [] => []
  | c :: s' => if isspace c then lstrip s' else s
  end.

(** [s.rstrip()]: drop the trailing whitespace. *)
Fixpoint rstrip (s : str) : str :=
  match s with
  | [] => []
  | c :: s' =>
      match rstrip s' with
      | [] => if isspace c then [] else [c]
      | r => c :: r
      end
  end.

(** [s.strip()]. *)
Definition strip (s : str) : str := rstrip (lstrip s).

(** A string that does not start with whitespace. *)
Definition head_ok (s : str) : Prop :=
  match s with
  | [] => True
  | c :: _ => isspace c = false
  end.

(** [s.startswith(p)]. *)
Fixpoint startswith (s p : str) {struct p} : bool :=
  match p, s with
  | [], _ => true
  | _ :: _, [] => false
  | a :: p', b :: s' => (a =? b)%N && startswith s' p'
  end.

(** [s.endswith(p)]. *)
Definition endswith (s p : str) : bool := startswith (rev s) (rev p).

(** [p in s]: [p] occurs in [s] as a substring. *)
Fixpoint str_in (p s : str) : bool :=
  startswith s p ||
  match s with
  | [] => false
  | _ :: s' => str_in p s'
  end.

(** [s.replace(old, new)] for a non-empty [old]: the occurrences are taken
    from the left and do not overlap; [skip] counts the characters of an
    occurrence still to be passed over.  For an empty [old] Python puts
    [new] before every character and at the end. *)
Fixpoint replace_from (old new : str) (skip : nat) (s : str) : str :=
  match s with
  | [] => []
  | c :: s' =>
      match skip with
      | S k => replace_from old new k s'
      | O =>
          if startswith s old
          then new ++ replace_from old new (List.length old - 1) s'
          else c :: replace_from old new O s'
      end
  end.

Definition replace (old new s : str) : str :=
  match old with
  | [] => new ++ flat_map (fun c => c :: new) s
  | _ :: _ => replace_from old new O s
  end.

(** The slice [s[:k]]; a negative [k] counts from the end. *)
Definition slice_to (s : str) (k : Z) : str :=
  if k <? 0 then firstn (Z.to_nat (len s + k)) s
  else firstn (Z.to_nat k) s.

(** ** Exceptions *)

(** The instances of Python's [Exception] the helpers and their
    collaborators raise. *)
Inductive exn : Type :=
| ValueError
| TypeError
| OverflowError
| ZeroDivisionError
| OSError
| UnidentifiedImageError
| HTTPError (status : Z)
| ConnectionError
| Timeout
| MemoryError
| DecompressionBombError
| OtherException (name : str).

Inductive res (A : Type) : Type :=
| Ok (a : A)
| Raise (e : exn).

Arguments Ok {A} a.
Arguments Raise {A} e.

Definition res_bind {A B} (m : res A) (k : A -> res B) : res B :=
  match m with
  | Ok a => k a
  | Raise e => Raise e
  end.

Declare Scope res_scope.
Delimit Scope res_scope with res.
Notation "x <- m ;; k" := (res_bind m (fun x => k))
  (at level 61, m at next level, right associativity) : res_scope.
Notation "' p <- m ;; k" := (res_bind m (fun x => let p := x in k))
  (at level 61, p pattern, m at next level, right associativity) : res_scope.

(** ** TextEllipsizer *)

(** Line 116: [(text or "").replace("\n", " ").strip()]. *)
Definition normalize (text : str) : str :=
  strip (replace [LF] [SPACE] (str_or text [])).

(** Lines 115-121. *)
Definition ellipsize (text : str) (max_chars : Z) : str :=
  let t := normalize text in
  if len t <=? max_chars then t
  else if max_chars <=? 1 then [ELLIPSIS]
  else rstrip (slice_to t (max_chars - 1)) ++ [ELLIPSIS].

(** A string that holds no line feed, the one line break that line 116
    replaces. *)
Definition no_line_feed (s : str) : Prop := ~ In LF s.

Definition CR : char := 13%N.

(** The line boundaries of [str.splitlines]: line feed, vertical tab, form
    feed and carriage return, the separators U+001C to U+001E, the next
    line character U+0085, and the line and paragraph separators U+2028 and
    U+2029. *)
Definition is_linebreak (c : char) : bool :=
  ((10 <=? c) && (c <=? 13) || (28 <=? c) && (c <=? 30)
   || (c =? 133) || (c =? 8232) || (c =? 8233))%N.

(** [s.splitlines()]: the lines of [s] without their boundaries, a carriage
    return followed by a line feed being one boundary.  [cur] holds the
    characters of the line being read, the last one first; [after_cr] tells
    that the character before was a carriage return. *)
Fixpoint splitlines_from (after_cr : bool) (cur s : str) : list str :=
  match s with
  | [] => if truthy cur then [rev cur] else []
  | c :: s' =>
      if after_cr && (c =? LF)%N then splitlines_from false cur s'
      else if is_linebreak c
           then rev cur :: splitlines_from (c =? CR)%N [] s'
           else splitlines_from false (c :: cur) s'
  end.

Definition splitlines (s : str) : list str := splitlines_from false [] s.

(** A single-line string: [str.splitlines] finds at most one line in it. *)
Definition single_line (s : str) : Prop :=
  (List.length (splitlines s) <= 1)%nat.

(** A text whose only line boundaries are line feeds. *)
Definition only_line_feeds (s : str) : Prop :=
  forall c, In c s -> is_linebreak c = true -> c = LF.

(** The normalized text in the words of the specification, with the line
    feed for the line break: every line feed becomes a space, and the
    whitespace before the first and after the last character that is not
    whitespace is cut off.  [normalize] above is what the code computes;
    the two are compared below. *)
Definition collapse_line_feeds (text : str) : str :=
  map (fun c => if (c =? LF)%N then SPACE else c) text.

(** A string that does not end with whitespace. *)
Definition last_ok (s : str) : Prop :=
  forall p c, s = p ++ [c] -> isspace c = false.

Definition trimmed (s t : str) : Prop :=
  exists l r,
    s = l ++ t ++ r
    /\ forallb isspace l = true /\ forallb isspace r = true
    /\ head_ok t /\ last_ok t.

Definition spec_normalized (text t : str) : Prop :=
  trimmed (collapse_line_feeds text) t.

(** [s] ends with the truncation marker. *)
Definition ends_with_ellipsis (s : str) : Prop := exists p, s = p ++ [ELLIPSIS].

(** The character of [s] at index [i], when there is one. *)
Definition char_at (s : str) (i : Z) : option char :=
  if i <? 0 then None else nth_error s (Z.to_nat i).


(** ** Standard-library functions taken as an interface *)

(** What [urllib.parse.urlparse] returns. *)
Record ParseResult : Type := mkParseResult {
  scheme : str;
  netloc : str;
  path : str;
  params : str;
  query : str;
  fragment : str
}.

(** [str.lower] rests on the Unicode case tables and [urlparse] on the URL
    grammar of [urllib]; neither belongs to this program, so the helpers are
    stated over any pair of them.  [ascii_lib] below is the instance the
    examples run on. *)
Class PyLib : Type := {
  str_lower : str -> str;
  urlparse : str -> res ParseResult;
  str_lower_nil : str_lower [] = []
}.

(** *** An instance for ASCII text *)

Definition lower_char (c : char) : char :=
  if ((65 <=? c) && (c <=? 90))%N then (c + 32)%N else c.

(** [str.lower] where only the letters A to Z have a lower case. *)
Definition ascii_lower (s : str) : str := map lower_char s.

Definition is_ascii_alpha (c : char) : bool :=
  ((65 <=? c) && (c <=? 90) || (97 <=? c) && (c <=? 122))%N.

(** [c in scheme_chars]: letters, digits, [+], [-] and [.]. *)
Definition is_scheme_char (c : char) : bool :=
  (is_ascii_alpha c || (48 <=? c) && (c <=? 57)
   || (c =? 43) || (c =? 45) || (c =? 46))%N.

Definition mem_char (c : char) (s : str) : bool := existsb (N.eqb c) s.

(** [s.split(c, 1)] when [c] occurs in [s]: the text before and after the
    first [c]. *)
Fixpoint split_first (c : char) (s : str) : option (str * str) :=
  match s with
  | [] => None
  | a :: s' =>
      if (a =? c)%N then Some ([], s')
      else match split_first c s' with
           | Some (l, r) => Some (a :: l, r)
           | None => None
           end
  end.

(** [_splitnetloc(url, 0)]: cut before the first of [/], [?] and [#]. *)
Fixpoint splitnetloc (s : str) : str * str :=
  match s with
  | [] => ([], [])
  | a :: s' =>
      if mem_char a (lit "/?#") then ([], s)
      else let '(l, r) := splitnetloc s' in (a :: l, r)
  end.

(** [_splitparams(url)]: cut at the first [;] that no [/] follows. *)
Fixpoint splitparams (s : str) : str * str :=
  match s with
  | [] => ([], [])
  | a :: s' =>
      if ((a =? 59)%N && negb (mem_char 47%N s')) then ([], s')
      else let '(l, r) := splitparams s' in (a :: l, r)
  end.

Definition uses_params : list str :=
  map lit [""; "ftp"; "hdl"; "prospero"; "http"; "imap"; "https"; "shttp";
           "rtsp"; "rtsps"; "rtspu"; "sip"; "sips"; "mms"; "sftp";
           "tel"]%string.

(** Leading C0 control characters and spaces, which [urlsplit] drops. *)
Fixpoint lstrip_c0 (s : str) : str :=
  match s with
  | [] => []
  | c :: s' => if (c <=? 32)%N then lstrip_c0 s' else s
  end.

(** [s.split(c)] on a character [c]; [cur] holds the characters of the
    piece being read, the last one first. *)
Fixpoint split_from (c : char) (cur s : str) : list str :=
  match s with
  | [] => [rev cur]
  | a :: s' =>
      if (a =? c)%N then rev cur :: split_from c [] s'
      else split_from c (a :: cur) s'
  end.

Definition str_split (c : char) (s : str) : list str := split_from c [] s.

(** [s.partition(c)]: the text before the first [c], whether there is one,
    and the text after it. *)
Definition partition (c : char) (s : str) : str * bool * str :=
  match split_first c s with
  | Some (l, r) => (l, true, r)
  | None => (s, false, [])
  end.

(** [s.rpartition(c)[2]]: the text after the last [c], all of [s] when
    there is none. *)
Fixpoint after_last (c : char) (s : str) : str :=
  match s with
  | [] => []
  | a :: s' =>
      if mem_char c s' then after_last c s'
      else if (a =? c)%N then s' else s
  end.

Definition is_digit (c : char) : bool := ((48 <=? c) && (c <=? 57))%N.

Definition is_hex_digit (c : char) : bool :=
  (is_digit c || (65 <=? c) && (c <=? 70) || (97 <=? c) && (c <=? 102))%N.

(** [int(s, 10)] on a string of digits. *)
Definition decimal (s : str) : N :=
  fold_left (fun n c => (10 * n + (c - 48))%N) s 0%N.

(** ['%x' % n] for [n] below 65536. *)
Definition hex_digit (d : N) : char :=
  if (d <? 10)%N then (48 + d)%N else (87 + d)%N.

Fixpoint lstrip_zeros (s : str) : str :=
  match s with
  | a :: ((_ :: _) as s') => if (a =? 48)%N then lstrip_zeros s' else s
  | _ => s
  end.

Definition hex16 (n : N) : str :=
  lstrip_zeros
    (map hex_digit
       [(n / 4096) mod 16; (n / 256) mod 16; (n / 16) mod 16; n mod 16]%N).

(** [IPv4Address._parse_octet] of the module [ipaddress]: the value of the
    octet, or nothing where the library raises. *)
Definition parse_octet (s : str) : option N :=
  if negb (truthy s) then None
  else if negb (forallb is_digit s) then None
  else if 3 <? len s then None
  else if negb (str_eqb s (lit "0")) && startswith s (lit "0") then None
  else if (255 <? decimal s)%N then None
  else Some (decimal s).

(** [IPv4Address(s)]: the address as a number, or nothing where the library
    raises. *)
Definition ipv4_address (s : str) : option N :=
  if mem_char 47%N s then None
  else if negb (truthy s) then None
  else
    match map parse_octet (str_split 46%N s) with
    | [Some a; Some b; Some c; Some d] =>
        Some (((a * 256 + b) * 256 + c) * 256 + d)%N
    | _ => None
    end.

(** [IPv6Address._parse_hextet] accepts one to four hexadecimal digits. *)
Definition valid_hextet (s : str) : bool :=
  forallb is_hex_digit s && (len s <=? 4) && truthy s.

(** The last [n] elements of a list. *)
Definition lastn {A} (n : nat) (l : list A) : list A :=
  skipn (List.length l - n) l.

(** The positions from 1 to [len(parts) - 2] of the empty parts: where the
    address has the sign of a skipped run of zeros between two colons. *)
Definition inner_empties (parts : list str) : list nat :=
  map fst
    (filter (fun ip => negb (truthy (snd ip)))
       (combine (seq 1 (List.length parts - 2)) (tl parts))).

(** [IPv6Address._ip_int_from_string], as a test: whether the library
    accepts the string. *)
Definition valid_ipv6_string (ip_str : str) : bool :=
  if negb (truthy ip_str) then false
  else
    let parts := str_split 58%N ip_str in
    if (List.length parts <? 3)%nat then false
    else
      let suffix :=
        if mem_char 46%N (last parts [])
        then match ipv4_address (last parts []) with
             | Some v =>
                 Some (removelast parts
                       ++ [hex16 ((v / 65536) mod 65536);
                           hex16 (v mod 65536)]%N)
             | None => None
             end
        else Some parts in
      match suffix with
      | None => false
      | Some parts =>
          if (9 <? List.length parts)%nat then false
          else
            match inner_empties parts with
            | _ :: _ :: _ => false
            | [skip_index] =>
                let parts_hi := skip_index in
                let parts_lo := (List.length parts - skip_index - 1)%nat in
                let head_empty := negb (truthy (hd [] parts)) in
                let last_empty := negb (truthy (last parts [])) in
                let parts_hi := if head_empty then (parts_hi - 1)%nat
                                else parts_hi in
                let parts_lo := if last_empty then (parts_lo - 1)%nat
                                else parts_lo in
                if head_empty && negb (parts_hi =? 0)%nat then false
                else if last_empty && negb (parts_lo =? 0)%nat then false
                else if (8 - (parts_hi + parts_lo) <? 1)%nat then false
                else forallb valid_hextet (firstn parts_hi parts)
                     && forallb valid_hextet (lastn parts_lo parts)
            | [] =>
                (List.length parts =? 8)%nat
                && truthy (hd [] parts) && truthy (last parts [])
                && forallb valid_hextet parts
            end
      end.

(** [IPv6Address(s)], as a test: no slash, a scope identifier after [%]
    that is neither empty nor holds a [%], and an address the library
    accepts. *)
Definition valid_ipv6 (s : str) : bool :=
  if mem_char 47%N s then false
  else
    let '(addr, sep, scope_id) := partition 37%N s in
    if sep && (negb (truthy scope_id) || mem_char 37%N scope_id) then false
    else valid_ipv6_string addr.

(** The regular expression of [_check_bracketed_host] for an IPvFuture
    host: the letter v, hexadecimal digits, a dot, and at least one more
    character, none of them a line feed. *)
Fixpoint after_hex_digits (s : str) : str :=
  match s with
  | a :: s' => if is_hex_digit a then after_hex_digits s' else s
  | [] => []
  end.

Definition is_ipvfuture (hostname : str) : bool :=
  match hostname with
  | 118%N :: (a :: _) as rest =>
      is_hex_digit a
      && match after_hex_digits rest with
         | 46%N :: (_ :: _) as more => negb (mem_char LF more)
         | _ => false
         end
  | _ => false
  end.

(** [_check_bracketed_host(hostname)] of [urllib.parse], as a test: an
    IPvFuture host, or an address that [ipaddress.ip_address] accepts and
    that is not an IPv4 address. *)
Definition bracketed_host_ok (hostname : str) : bool :=
  if startswith hostname (lit "v") then is_ipvfuture hostname
  else
    match ipv4_address hostname with
    | Some _ => false
    | None => valid_ipv6 hostname
    end.

(** [_check_bracketed_netloc(netloc)], as a test. *)
Definition bracketed_netloc_ok (netloc_ : str) : bool :=
  let hostname_and_port := after_last 64%N netloc_ in
  let '(before_bracket, have_open_br, bracketed) :=
    partition 91%N hostname_and_port in
  if have_open_br then
    if truthy before_bracket then false
    else
      let '(hostname, _, port) := partition 93%N bracketed in
      if truthy port && negb (startswith port (lit ":")) then false
      else bracketed_host_ok hostname
  else
    let '(hostname, _, _) := partition 58%N hostname_and_port in
    bracketed_host_ok hostname.

(** The characters beyond ASCII whose compatibility form (NFKC, Unicode
    14) holds one of [/], [?], [#], [@] and [:]; there are nineteen, and
    no character composes with one of the five. *)
Definition nfkc_delimiters : list char :=
  [8263; 8264; 8265; 8448; 8449; 8453; 8454; 10868; 65043; 65046; 65109;
   65110; 65119; 65131; 65283; 65295; 65306; 65311; 65312]%N.

(** [_checknetloc(netloc)], as a test: a network location that is not
    ASCII may not bring one of the five delimiters in through its
    compatibility form. *)
Definition checknetloc_ok (netloc_ : str) : bool :=
  forallb (fun c => (c <? 128)%N) netloc_
  || negb (existsb (fun c => mem_char c nfkc_delimiters) netloc_).

(** [urlparse] after [urllib.parse] of CPython 3.11: strip the leading
    control characters and spaces, remove tab, carriage return and line
    feed, split off the scheme, the network location with its checks, the
    fragment, the query and the parameters. *)
Definition ascii_urlparse (url : str) : res ParseResult :=
  let url := lstrip_c0 url in
  let url := filter (fun c => negb (mem_char c [9; 13; 10]%N)) url in
  let '(sch, url) :=
    match split_first 58%N url with
    | Some (a :: l, r) =>
        if is_ascii_alpha a && forallb is_scheme_char (a :: l)
        then (ascii_lower (a :: l), r)
        else ([], url)
    | _ => ([], url)
    end in
  let '(loc, url) :=
    match url with
    | 47%N :: 47%N :: rest => splitnetloc rest
    | _ => ([], url)
    end in
  if xorb (mem_char 91%N loc) (mem_char 93%N loc) then Raise ValueError
  else if mem_char 91%N loc && negb (bracketed_netloc_ok loc)
  then Raise ValueError
  else
    let '(url, frag) :=
      match split_first 35%N url with
      | Some (l, r) => (l, r)
      | None => (url, [])
      end in
    let '(url, qry) :=
      match split_first 63%N url with
      | Some (l, r) => (l, r)
      | None => (url, [])
      end in
    if negb (checknetloc_ok loc) then Raise ValueError
    else
      let '(url, prm) :=
        if existsb (str_eqb sch) uses_params && mem_char 59%N url
        then splitparams url
        else (url, []) in
      Ok (mkParseResult sch loc url prm qry frag).

(** [urlparse] as [urllib] has it, [str.lower] on the letters A to Z. *)
Definition ascii_lib : PyLib :=
  {| str_lower := ascii_lower;
     urlparse := ascii_urlparse;
     str_lower_nil := eq_refl |}.

(** ** Content classification *)

(** Lines 48-61.  [content_type] is [None] or a string; the [try] around
    [urlparse] swallows whatever it raises. *)
Definition _looks_like_svg `{PyLib} (url : str) (content_type : option str)
  : bool :=
  let u := str_lower (str_or url []) in
  if match content_type with
     | Some c => truthy c && str_in (lit "svg") (str_lower c)
     | None => false
     end
  then true
  else if endswith u (lit ".svg") then true
  else
    match urlparse url with
    | Ok r => if endswith (str_lower (path r)) (lit ".svg") then true else false
    | Raise _ => false
    end.

(** ** Python numbers *)

Definition float := spec_float.
Definition prec64 : Z := 53.
Definition emax64 : Z := 1024.

(** An integer as an unrounded floating-point datum. *)
Definition exact_int (z : Z) : float :=
  match z with
  | Z0 => S754_zero false
  | Zpos p => S754_finite false p 0
  | Zneg p => S754_finite true p 0
  end.

Definition finite_or_overflow (f : float) : res float :=
  match f with
  | S754_infinity _ => Raise OverflowError
  | _ => Ok f
  end.

(** [float(z)]: the nearest double, ties to even. *)
Definition float_of_int (z : Z) : res float :=
  finite_or_overflow (binary_normalize prec64 emax64 z 0 false).

(** [a / b] on integers: the quotient rounded once to the nearest double. *)
Definition int_truediv (a b : Z) : res float :=
  if b =? 0 then Raise ZeroDivisionError
  else finite_or_overflow (SFdiv prec64 emax64 (exact_int a) (exact_int b)).

(** [z * f] with [z] an integer and [f] a float. *)
Definition int_mul_float (z : Z) (f : float) : res float :=
  (x <- float_of_int z ;; Ok (SFmul prec64 emax64 x f))%res.

(** [int(f)]: truncation towards zero. *)
Definition int_of_float (f : float) : res Z :=
  match f with
  | S754_nan => Raise ValueError
  | S754_infinity _ => Raise OverflowError
  | S754_zero _ => Ok 0
  | S754_finite s m e =>
      Ok (cond_Zopp s (if 0 <=? e then Z.pos m * 2 ^ e
                       else Z.pos m / 2 ^ (- e)))
  end.

(** [max(a, b)] on floats: [b] when [b > a], else [a]. *)
Definition float_max (a b : float) : float := if SFltb a b then b else a.

(** The value of a positive finite float [m * 2 ^ e], as a rational, and
    the relative error of one rounding. *)
Definition pow2 (e : Z) : Q := (2 ^ e)%Q.

Definition val (m : positive) (e : Z) : Q := (inject_Z (Z.pos m) * pow2 e)%Q.

Definition eps : Q := (1 # 4503599627370496)%Q.

(** The float 1.0. *)
Definition float_one : float := S754_finite false 4503599627370496 (-52).

(** ** Bitmaps *)

Definition Pixel : Type := Z * Z * Z.

(** A decoded image: its size [(width, height)] and its pixels.  The images
    this program handles are in mode RGB (lines 84 and 90). *)
Record Image : Type := mkImage {
  size : Z * Z;
  getpixel : Z -> Z -> Pixel
}.

(** The resampling routine of Pillow under a filter.  It allocates the new
    image and fills it: it answers with the pixels of the resized image, or
    it raises, [MemoryError] when the new image does not fit in memory.
    Whether it does depends on the machine, so the routine is a parameter
    of the program, as the filter is. *)
Definition Resampler : Type := Image -> Z * Z -> res (Z -> Z -> Pixel).

(** [Image.resize(size, resample)] of Pillow: a copy when the size is
    unchanged, [ValueError] when a side of the new size is below 1, else
    what the resampling routine answers. *)
Definition Image_resize (im : Image) (new_size : Z * Z) (resample : Resampler)
  : res Image :=
  let '(w, h) := new_size in
  let '(iw, ih) := size im in
  if (iw =? w) && (ih =? h) then Ok im
  else if (w <? 1) || (h <? 1) then Raise ValueError
  else (px <- resample im (w, h) ;; Ok (mkImage (w, h) px))%res.

(** [Image.MAX_IMAGE_PIXELS], 89478485. *)
Definition MAX_IMAGE_PIXELS : Z := 1024 * 1024 * 1024 / 4 / 3.

(** [Image._decompression_bomb_check(size)]: more than twice
    [MAX_IMAGE_PIXELS] pixels, 178956970, are refused; between once and
    twice the limit the library only warns. *)
Definition _decompression_bomb_check (size : Z * Z) : res unit :=
  let pixels := Z.max 1 (fst size) * Z.max 1 (snd size) in
  if 2 * MAX_IMAGE_PIXELS <? pixels then Raise DecompressionBombError
  else Ok tt.

(** [Image.crop(box)] of Pillow: a box whose right or lower edge comes
    before the left or upper one is refused, and so is a box of more
    pixels than [_decompression_bomb_check] lets pass; the region has the
    size of the box and is black where the box leaves the image. *)
Definition Image_crop (im : Image) (box : Z * Z * Z * Z) : res Image :=
  let '(l, t, r, b) := box in
  let '(iw, ih) := size im in
  if (r <? l) || (b <? t) then Raise ValueError
  else
    (_ <- _decompression_bomb_check (Z.abs (r - l), Z.abs (b - t)) ;;
     Ok (mkImage (r - l, b - t)
           (fun x y =>
              let sx := x + l in
              let sy := y + t in
              if (0 <=? sx) && (sx <? iw) && (0 <=? sy) && (sy <? ih)
              then getpixel im sx sy
              else (0, 0, 0))))%res.

(** A resampler for the examples: nearest neighbour, on a machine with
    memory for every image. *)
Definition NEAREST : Resampler :=
  fun im new_size =>
    Ok (fun x y =>
          let '(w, h) := new_size in
          let '(iw, ih) := size im in
          getpixel im (x * iw / w) (y * ih / h)).

(** ** ImageFitter *)

(** Lines 106-107: the size the image is scaled to. *)
Definition scaled_size (iw ih target_w target_h : Z) : res (Z * Z) :=
  (a <- int_truediv target_w iw ;;
   b <- int_truediv target_h ih ;;
   let scale := float_max a b in
   x <- int_mul_float iw scale ;;
   nw <- int_of_float x ;;
   y <- int_mul_float ih scale ;;
   nh <- int_of_float y ;;
   Ok (nw, nh))%res.

(** The scale step of section 4.2 of the specification over the rationals,
    where no quotient and no product is rounded; [scaled_size] is compared
    with it below. *)
Definition Qmax2 (a b : Q) : Q := if Qlt_le_dec a b then b else a.

Definition rational_scaled_size (iw ih target_w target_h : Z) : Z * Z :=
  let scale :=
    Qmax2 (inject_Z target_w / inject_Z iw) (inject_Z target_h / inject_Z ih)
  in (Qfloor (inject_Z iw * scale), Qfloor (inject_Z ih * scale)).

(** Lines 98-112.  [img] is [None] or an image; [//] is [Z.div], both round
    towards minus infinity. *)
Definition fit_cover (LANCZOS : Resampler) (img : option Image)
  (target_w target_h : Z) : res (option Image) :=
  match img with
  | None => Ok None
  | Some img =>
      let '(iw, ih) := size img in
      if (iw <=? 0) || (ih <=? 0) then Ok None
      else
        ('(nw, nh) <- scaled_size iw ih target_w target_h ;;
         resized <- Image_resize img (nw, nh) LANCZOS ;;
         let left := Z.max 0 ((nw - target_w) / 2) in
         let top := Z.max 0 ((nh - target_h) / 2) in
         out <- Image_crop resized
                  (left, top, left + target_w, top + target_h) ;;
         Ok (Some out))%res
  end.

(** ** The collaborators of ImageFetcher *)

(** What [requests.get] returns; [headers] has one entry for each field
    name. *)
Record Response : Type := mkResponse {
  status_code : Z;
  headers : list (str * str);
  content : bytes
}.

(** The calls that leave the program: the HTTP request, the SVG rasterizer
    and the image decoder. *)
Inductive event : Type :=
| EvGet (url : str) (hdrs : list (str * str)) (timeout : Z)
| EvSvg2png (bytestring : bytes) (output_width : Z)
| EvOpen (data : bytes).

(** The behaviour of the collaborators: each answers or raises.
    [cairosvg] is [None] when the import on line 32 failed. *)
Record World : Type := mkWorld {
  requests_get : str -> list (str * str) -> Z -> res Response;
  cairosvg : option (bytes -> Z -> res bytes);
  Image_open : bytes -> res Image;
  Image_convert : Image -> str -> res Image
}.

(** A computation that may raise and that extends the log of the calls. *)
Definition IO (A : Type) : Type := list event -> res A * list event.

Definition ret {A} (a : A) : IO A := fun log => (Ok a, log).

Definition bind {A B} (m : IO A) (k : A -> IO B) : IO B :=
  fun log =>
    match m log with
    | (Ok a, log') => k a log'
    | (Raise e, log') => (Raise e, log')
    end.

(** A call to a collaborator is logged, whatever its outcome. *)
Definition call {A} (ev : event) (r : res A) : IO A :=
  fun log => (r, log ++ [ev]).

(** A step that raises or not without leaving the program. *)
Definition pure {A} (r : res A) : IO A := fun log => (r, log).

(** [try: body / except Exception: handler]. *)
Definition try_except {A} (body : IO A) (handler : exn -> IO A) : IO A :=
  fun log =>
    match body log with
    | (Ok a, log') => (Ok a, log')
    | (Raise e, log') => handler e log'
    end.

Declare Scope io_scope.
Delimit Scope io_scope with io.
Notation "x <- m ;; k" := (bind m (fun x => k))
  (at level 61, m at next level, right associativity) : io_scope.

(** [resp.raise_for_status()]: an error status, 400 to 599, raises. *)
Definition raise_for_status (resp : Response) : res unit :=
  if (400 <=? status_code resp) && (status_code resp <? 600)
  then Raise (HTTPError (status_code resp))
  else Ok tt.

(** [headers.get(key, default)] on the case-insensitive headers of a
    response. *)
Fixpoint headers_get `{PyLib} (hs : list (str * str)) (key default : str)
  : str :=
  match hs with
  | [] => default
  | (k, v) :: hs' =>
      if str_eqb (str_lower k) (str_lower key) then v
      else headers_get hs' key default
  end.

Definition user_agent : list (str * str) :=
  [(lit "User-Agent", lit "NotifPreviewer/1.0 (requests)")].

(** [Image.open(io.BytesIO(data)).convert("RGB")], lines 84 and 90. *)
Definition open_rgb (W : World) (data : bytes) : IO Image :=
  (img <- call (EvOpen data) (Image_open W data) ;;
   pure (Image_convert W img (lit "RGB")))%io.

(** ** ImageFetcher *)

(** Lines 64-94. *)
Definition fetch_image `{PyLib} (W : World) (url : str) (timeout : Z)
  : IO (option Image) :=
  let url := strip (str_or url []) in
  if negb (truthy url) then ret None
  else
    try_except
      (let hdrs := user_agent in
       resp <- call (EvGet url hdrs timeout)
                 (requests_get W url hdrs timeout) ;;
       _ <- pure (raise_for_status resp) ;;
       let ctype := headers_get (headers resp) (lit "Content-Type") [] in
       let data := content resp in
       if _looks_like_svg url (Some ctype) then
         match cairosvg W with
         | None => ret None
         | Some svg2png =>
             try_except
               (png_bytes <- call (EvSvg2png data 1200) (svg2png data 1200) ;;
                img <- open_rgb W png_bytes ;;
                ret (Some img))
               (fun _ => ret None)
         end
       else
         (img <- open_rgb W data ;;
          ret (Some img)))%io
      (fun _ => ret None).

(** The default of the parameter [timeout]. *)
Definition default_timeout : Z := 10.

(** The calls a run adds to the log hold no decoding of image bytes. *)
Definition no_decode (evs : list event) : Prop := forall d, ~ In (EvOpen d) evs.

(** ** The widgets of a preview *)

(** What [ImageTk.PhotoImage] makes of an image. *)
Record PhotoImage : Type := mkPhoto {
  photo_image : Image
}.

(** [ImageTk.PhotoImage(image)]: an image is required. *)
Definition ImageTk_PhotoImage (image : option Image) : res PhotoImage :=
  match image with
  | Some im => Ok (mkPhoto im)
  | None => Raise ValueError
  end.

(** A font: family, size and weight (empty when none is given). *)
Record Font : Type := mkFont {
  family : str;
  points : Z;
  weight : str
}.

(** The items the program draws on a canvas, with the options it passes. *)
Inductive item : Type :=
| Oval (x0 y0 x1 y1 : Z) (fill outline : str)
| Rectangle (x0 y0 x1 y1 : Z) (fill outline : str)
| Text (x y : Z) (text fill : str) (font : Font)
| ImageItem (x y : Z) (image : PhotoImage) (anchor : str).

(** The state of a [NotificationPreview] that its methods read and write:
    the mode, the text of the two labels, the items of the two canvases and
    the two image references.  [big_canvas_size] is what [winfo_width] and
    [winfo_height] of the big canvas report. *)
Record Preview : Type := mkPreview {
  pv_mode : str;
  title_label : str;
  body_label : str;
  body_wraplength : Z;
  big_canvas : list item;
  big_canvas_size : Z * Z;
  _photo_big : option PhotoImage;
  icon_canvas : list item;
  _photo_icon : option PhotoImage
}.

Definition set_labels (self : Preview) (title body : str) (wrap : Z)
  : Preview :=
  mkPreview (pv_mode self) title body wrap (big_canvas self)
    (big_canvas_size self) (_photo_big self) (icon_canvas self)
    (_photo_icon self).

Definition set_big_canvas (self : Preview) (items : list item) : Preview :=
  mkPreview (pv_mode self) (title_label self) (body_label self)
    (body_wraplength self) items (big_canvas_size self) (_photo_big self)
    (icon_canvas self) (_photo_icon self).

Definition set_photo_big (self : Preview) (ph : option PhotoImage)
  : Preview :=
  mkPreview (pv_mode self) (title_label self) (body_label self)
    (body_wraplength self) (big_canvas self) (big_canvas_size self) ph
    (icon_canvas self) (_photo_icon self).

Definition set_icon_canvas (self : Preview) (items : list item) : Preview :=
  mkPreview (pv_mode self) (title_label self) (body_label self)
    (body_wraplength self) (big_canvas self) (big_canvas_size self)
    (_photo_big self) items (_photo_icon self).

Definition set_photo_icon (self : Preview) (ph : option PhotoImage)
  : Preview :=
  mkPreview (pv_mode self) (title_label self) (body_label self)
    (body_wraplength self) (big_canvas self) (big_canvas_size self)
    (_photo_big self) (icon_canvas self) ph.

(** [z or d] on integers: zero is false. *)
Definition int_or (z d : Z) : Z := if z =? 0 then d else z.

(** [x if x else d] on strings. *)
Definition str_else (x d : str) : str := if truthy x then x else d.

(** ** PreviewRenderer *)

(** Lines 217-224: the two texts to show. *)
Definition display_texts (mode title body : str) : str * str :=
  if str_eqb mode (lit "collapsed")
  then (ellipsize (str_else title (lit "Title")) 38,
        ellipsize (str_else body (lit "Body")) 92)
  else (ellipsize (str_else title (lit "Title")) 52,
        ellipsize (str_else body (lit "Body")) 220).

Definition placeholder_text : str := lit "(No image / couldn't load)".

(** Lines 211-245.  The result is the state the method leaves, also when it
    raises, and what it raises. *)
Definition set_content (LANCZOS : Resampler) (self : Preview)
  (title body : str) (img : option Image) : res unit * Preview :=
  let title := strip (str_or title []) in
  let body := strip (str_or body []) in
  let '(display_title, display_body) :=
    display_texts (pv_mode self) title body in
  let self := set_labels self display_title display_body 420 in
  if str_eqb (pv_mode self) (lit "expanded") then
    let self := set_big_canvas self [] in
    let w := int_or (fst (big_canvas_size self)) 360 in
    let h := int_or (snd (big_canvas_size self)) 180 in
    match img with
    | None =>
        let self :=
          set_big_canvas self
            [Rectangle 0 0 w h (lit "#2a2a2a") (lit "#303030");
             Text (w / 2) (h / 2) placeholder_text (lit "#bdbdbd")
               (mkFont (lit "Segoe UI") 10 [])] in
        (Ok tt, set_photo_big self None)
    | Some _ =>
        match fit_cover LANCZOS img w h with
        | Raise e => (Raise e, self)
        | Ok fitted =>
            match ImageTk_PhotoImage fitted with
            | Raise e => (Raise e, self)
            | Ok ph =>
                let self := set_photo_big self (Some ph) in
                (Ok tt,
                 set_big_canvas self [ImageItem 0 0 ph (lit "nw")])
            end
        end
    end
  else (Ok tt, self).

(** ** The icon of a preview *)

(** The file system as [_draw_default_icon] sees it. *)
Record Files : Type := mkFiles {
  os_path_exists : str -> bool;
  Image_open_path : str -> res Image
}.

Definition fallback_icon : list item :=
  [Oval 3 3 33 33 (lit "#4a90e2") [];
   Text 18 18 (lit "A") (lit "white")
     (mkFont (lit "Segoe UI") 14 (lit "bold"))].

(** Lines 196-198: the logo, decoded, converted and resized.  The alpha
    channel that the conversion adds is not part of [Pixel]. *)
Definition load_logo (F : Files) (W : World) (LANCZOS : Resampler)
  (logo_path : str) : res PhotoImage :=
  (img <- Image_open_path F logo_path ;;
   img <- Image_convert W img (lit "RGBA") ;;
   img <- Image_resize img (30, 30) LANCZOS ;;
   ImageTk_PhotoImage (Some img))%res.

(** Lines 190-208. *)
Definition _draw_default_icon (F : Files) (W : World) (LANCZOS : Resampler)
  (self : Preview) : Preview :=
  let self := set_icon_canvas self [] in
  let logo_path := lit "logo.png" in
  if os_path_exists F logo_path then
    match load_logo F W LANCZOS logo_path with
    | Ok ph =>
        let self := set_photo_icon self (Some ph) in
        set_icon_canvas self
          [Oval 3 3 33 33 (lit "#2b2b2b") [];
           ImageItem 18 18 ph (lit "center")]
    | Raise _ => set_icon_canvas self fallback_icon
    end
  else set_icon_canvas self fallback_icon.

(** ** The application *)

(** A dialog the program opens. *)
Inductive dialog : Type :=
| ShowWarning (title message : str).

(** The state of [App] that [generate] and [clear] read and write: the
    three inputs, the last image, the two previews, and the dialogs shown so
    far.  [body_text] is the content of the text widget. *)
Record App : Type := mkApp {
  title_var : str;
  body_text : str;
  img_var : str;
  _last_img : option Image;
  collapsed : Preview;
  expanded : Preview;
  dialogs : list dialog
}.

(** [text.get("1.0", "end")]: the content and the line feed Tk ends it
    with. *)
Definition text_get (content : str) : str := content ++ [LF].

Definition load_failed : dialog :=
  ShowWarning (lit "Image load failed")
    (lit "Couldn't load the image from that URL." ++ [LF]
     ++ lit "Preview will show a placeholder.").

(** Lines 356-357 and 336-337: [set_content] on the collapsed preview, then
    on the expanded one. *)
Definition set_both (LANCZOS : Resampler) (self : App) (title body : str)
  (img : option Image) : res unit * App :=
  let '(r1, c) := set_content LANCZOS (collapsed self) title body img in
  let self :=
    mkApp (title_var self) (body_text self) (img_var self) (_last_img self)
      c (expanded self) (dialogs self) in
  match r1 with
  | Raise e => (Raise e, self)
  | Ok _ =>
      let '(r2, x) := set_content LANCZOS (expanded self) title body img in
      (r2,
       mkApp (title_var self) (body_text self) (img_var self)
         (_last_img self) (collapsed self) x (dialogs self))
  end.

(** [self.dialogs] with one more dialog. *)
Definition show (self : App) (d : dialog) : App :=
  mkApp (title_var self) (body_text self) (img_var self) (_last_img self)
    (collapsed self) (expanded self) (dialogs self ++ [d]).

Definition set_last_img (self : App) (img : option Image) : App :=
  mkApp (title_var self) (body_text self) (img_var self) img
    (collapsed self) (expanded self) (dialogs self).

(** Lines 339-357.  The result is what the method raises, if anything, the
    state it leaves and the log of the calls to the collaborators. *)
Definition generate `{PyLib} (W : World) (LANCZOS : Resampler) (self : App)
  (log : list event) : res unit * App * list event :=
  let title := title_var self in
  let body := strip (text_get (body_text self)) in
  let url := strip (img_var self) in
  let finish (self : App) (img : option Image) (log : list event) :=
    (set_both LANCZOS (set_last_img self img) title body img, log) in
  if truthy url then
    match fetch_image W url default_timeout log with
    | (Raise e, log) => (Raise e, self, log)
    | (Ok None, log) => finish (show self load_failed) None log
    | (Ok (Some img), log) => finish self (Some img) log
    end
  else finish self None log.

(** Lines 331-337. *)
Definition clear (LANCZOS : Resampler) (self : App) : res unit * App :=
  let self :=
    mkApp [] [] [] None (collapsed self) (expanded self) (dialogs self) in
  set_both LANCZOS self [] [] None.

(** A text fit for a label of [n] characters: not empty, at most [n]
    characters long, free of line feeds and without whitespace at either
    end. *)
Definition label_ok (s : str) (n : Z) : Prop :=
  s <> [] /\ len s <= n /\ no_line_feed s /\ strip s = s.

(** The placeholder of the expanded preview for a canvas of [w] by [h]. *)
Definition placeholder_items (w h : Z) : list item :=
  [Rectangle 0 0 w h (lit "#2a2a2a") (lit "#303030");
   Text (w / 2) (h / 2) placeholder_text (lit "#bdbdbd")
     (mkFont (lit "Segoe UI") 10 [])].

(** The size [set_content] fits the picture to. *)
Definition canvas_box (self : Preview) : Z * Z :=
  (int_or (fst (big_canvas_size self)) 360,
   int_or (snd (big_canvas_size self)) 180).

(** ** Sample data for the examples *)

Definition sample_body : str :=
  lit "two" ++ [LF] ++ lit "lines of a rather long body text".

Definition grey : Pixel := (128, 128, 128).

(** An image with no columns. *)
Definition empty_image : Image := mkImage (0, 7) (fun _ _ => grey).

Definition svg_url : str := lit "https://cdn.example/logo.SVG?v=3".
Definition query_url : str := lit "http://h/i?f=.svg".
Definition svg_payload : bytes := lit "<svg/>".

(** A world without rasterizer in which every request is answered with the
    same SVG payload, declared as such. *)
Definition svg_world : World :=
  {| requests_get := fun _ _ _ =>
       Ok (mkResponse 200 [(lit "content-type", lit "image/svg+xml")]
             svg_payload);
     cairosvg := None;
     Image_open := fun _ => Raise UnidentifiedImageError;
     Image_convert := fun im _ => Ok im |}.

Definition png_url : str := lit " http://h/i.png ".
Definition png_payload : bytes := [137; 80; 78; 71]%N.

(** A 4 by 2 image of one colour. *)
Definition grey_image : Image := mkImage (4, 2) (fun _ _ => grey).

(** A world in which every request is answered with the same payload and
    the decoder makes [grey_image] of it. *)
Definition raster_world : World :=
  {| requests_get := fun _ _ _ => Ok (mkResponse 200 [] png_payload);
     cairosvg := None;
     Image_open := fun _ => Ok grey_image;
     Image_convert := fun im _ => Ok im |}.

(** A 1000 by 1000 image whose pixels tell their position, and what
    [fit_cover] makes of it for the box 360 by 180. *)
Definition gradient_image : Image :=
  mkImage (1000, 1000) (fun x y => (x, y, 0)).

Definition gradient_fitted : Image :=
  match fit_cover NEAREST (Some gradient_image) 360 180 with
  | Ok (Some out) => out
  | _ => empty_image
  end.

(** The previews and the inputs as [App.__init__] leaves them, lines 318 to
    327, before the first layout. *)
Definition new_preview (mode : str) : Preview :=
  mkPreview mode (lit "Title") (lit "Body") 0 [] (1, 1) None [] None.

Definition new_app : App :=
  mkApp (lit "Title") (lit "Insert text") [] None
    (new_preview (lit "collapsed")) (new_preview (lit "expanded")) [].

(** * Properties *)

(** ** Strings *)

Lemma len_nonneg {A} (s : list A) : 0 <= len s.
Proof. unfold len. lia. Qed.

Lemma len_app {A} (s t : list A) : len (s ++ t) = len s + len t.
Proof. unfold len. rewrite length_app. lia. Qed.

Lemma str_or_nil (s : str) : str_or s [] = s.
Proof. destruct s; reflexivity. Qed.

Lemma replace_char (a b : char) (s : str) :
  replace [a] [b] s = map (fun c => if (a =? c)%N then b else c) s.
Proof.
  unfold replace.
  induction s as [|c s IH]; simpl; [reflexivity|].
  destruct (a =? c)%N; simpl; now rewrite IH.
Qed.

Lemma replace_char_absent (a b : char) (s : str) :
  ~ In a s -> replace [a] [b] s = s.
Proof.
  rewrite replace_char.
  induction s as [|c s IH]; simpl; intros Hn; [reflexivity|].
  destruct (N.eqb_spec a c) as [->|_].
  - exfalso. apply Hn. now left.
  - f_equal. apply IH. intros Hin. apply Hn. now right.
Qed.

Lemma replace_char_removes (a b : char) (s : str) :
  a <> b -> ~ In a (replace [a] [b] s).
Proof.
  intros Hab. rewrite replace_char.
  induction s as [|c s IH]; simpl; [tauto|].
  intros [Heq|Hin]; [|now apply IH].
  destruct (N.eqb_spec a c); congruence.
Qed.

Lemma lstrip_incl (s : str) (c : char) : In c (lstrip s) -> In c s.
Proof.
  induction s as [|a s IH]; simpl; [tauto|].
  destruct (isspace a); simpl; tauto.
Qed.

(** [rstrip] cuts a run of whitespace off the end. *)
Lemma rstrip_decomp (s : str) :
  exists w, s = rstrip s ++ w /\ forallb isspace w = true.
Proof.
  induction s as [|a s [w [Hs Hw]]]; simpl.
  - now exists [].
  - destruct (rstrip s) as [|b r] eqn:Hr.
    + simpl in Hs. subst w.
      destruct (isspace a) eqn:Ha.
      * exists (a :: s). simpl. now rewrite Ha, Hw.
      * now exists s.
    + exists w. split; [|assumption]. simpl. now f_equal.
Qed.

Lemma rstrip_incl (s : str) (c : char) : In c (rstrip s) -> In c s.
Proof.
  destruct (rstrip_decomp s) as [w [Hs _]].
  intros Hin. rewrite Hs. apply in_or_app. now left.
Qed.

Lemma rstrip_len (s : str) : len (rstrip s) <= len s.
Proof.
  destruct (rstrip_decomp s) as [w [Hs _]].
  rewrite Hs at 2. rewrite len_app. pose proof (len_nonneg w). lia.
Qed.

Lemma rstrip_len_eq (s : str) : len (rstrip s) = len s -> rstrip s = s.
Proof.
  destruct (rstrip_decomp s) as [w [Hs _]].
  intros Hl. rewrite Hs in Hl at 2. rewrite len_app in Hl.
  destruct w as [|c w].
  - now rewrite app_nil_r in Hs.
  - unfold len in Hl. simpl in Hl. lia.
Qed.

Lemma rstrip_cons_nonspace (c : char) (s : str) :
  isspace c = false -> rstrip (c :: s) = c :: rstrip s.
Proof.
  intros Hc. simpl. destruct (rstrip s); [now rewrite Hc|reflexivity].
Qed.

(** What [rstrip] leaves does not end in whitespace. *)
Lemma rstrip_last (s p : str) (c : char) :
  rstrip s = p ++ [c] -> isspace c = false.
Proof.
  revert p. induction s as [|a s IH]; intros p; simpl.
  - destruct p; discriminate.
  - destruct (rstrip s) as [|b r] eqn:Hr.
    + destruct (isspace a) eqn:Ha.
      * destruct p; discriminate.
      * destruct p as [|x p]; simpl; intros E.
        -- congruence.
        -- destruct p; discriminate.
    + destruct p as [|x p]; simpl; intros E; inversion E; subst.
      now apply (IH p).
Qed.

Lemma rstrip_app_nonspace (p : str) (c : char) :
  isspace c = false -> rstrip (p ++ [c]) = p ++ [c].
Proof.
  intros Hc. induction p as [|a p IH]; simpl.
  - now rewrite Hc.
  - rewrite IH. destruct (p ++ [c]) eqn:E; [|reflexivity].
    destruct p; discriminate.
Qed.

Lemma rstrip_idem (s : str) : rstrip (rstrip s) = rstrip s.
Proof.
  destruct (rstrip s) as [|a r] eqn:Hr; [reflexivity|].
  destruct (exists_last (l := a :: r)) as [p [c Hp]]; [discriminate|].
  rewrite Hp. apply rstrip_app_nonspace.
  apply (rstrip_last s p). congruence.
Qed.

Lemma lstrip_head_ok (s : str) : head_ok (lstrip s).
Proof.
  induction s as [|a s IH]; simpl; [exact I|].
  destruct (isspace a) eqn:Ha; [assumption|exact Ha].
Qed.

Lemma head_ok_lstrip (s : str) : head_ok s -> lstrip s = s.
Proof. destruct s as [|a s]; simpl; [reflexivity|]. now intros ->. Qed.

Lemma rstrip_head_ok (s : str) : head_ok s -> head_ok (rstrip s).
Proof.
  destruct s as [|a s]; [intros _; exact I|].
  intros Ha. simpl in Ha. now rewrite rstrip_cons_nonspace.
Qed.

Lemma strip_head_ok (s : str) : head_ok (strip s).
Proof. apply rstrip_head_ok, lstrip_head_ok. Qed.

Lemma strip_incl (s : str) (c : char) : In c (strip s) -> In c s.
Proof. intros H. now apply lstrip_incl, rstrip_incl. Qed.

(** A string that neither starts nor ends with whitespace is its own
    [strip]. *)
Lemma strip_fixed (s : str) : head_ok s -> rstrip s = s -> strip s = s.
Proof. intros Hh Hr. unfold strip. now rewrite head_ok_lstrip. Qed.

Lemma strip_idem (s : str) : strip (strip s) = strip s.
Proof.
  apply strip_fixed; [apply strip_head_ok|apply rstrip_idem].
Qed.

Lemma strip_all_space (s : str) : forallb isspace s = true -> strip s = [].
Proof.
  unfold strip. induction s as [|a s IH]; simpl; [reflexivity|].
  intros H. apply andb_prop in H as [Ha Hs]. rewrite Ha. now apply IH.
Qed.

Lemma firstn_incl (n : nat) (s : str) (c : char) : In c (firstn n s) -> In c s.
Proof.
  intros H. rewrite <- (firstn_skipn n s). apply in_or_app. now left.
Qed.

Lemma firstn_head_ok (n : nat) (s : str) : head_ok s -> head_ok (firstn n s).
Proof. destruct n, s; simpl; auto. Qed.

Lemma len_firstn (n : nat) (s : str) :
  Z.of_nat n <= len s -> len (firstn n s) = Z.of_nat n.
Proof.
  unfold len. intros H. rewrite firstn_length_le; [reflexivity|lia].
Qed.

(** The last character of a prefix of [s] is a character of [s]. *)
Lemma firstn_last (n : nat) (s p : str) (c : char) :
  Z.of_nat n <= len s -> firstn n s = p ++ [c] ->
  nth_error s (n - 1) = Some c.
Proof.
  intros Hn E.
  assert (Hl : (List.length p + 1 = n)%nat).
  { apply (f_equal (@List.length _)) in E.
    rewrite length_app, firstn_length_le in E; [simpl in E; lia|].
    unfold len in Hn. lia. }
  assert (Hp : nth_error (firstn n s) (n - 1) = Some c).
  { rewrite E, nth_error_app2 by lia.
    replace (n - 1 - List.length p)%nat with O by lia. reflexivity. }
  rewrite nth_error_firstn in Hp.
  destruct (Nat.ltb_spec (n - 1) n); [assumption|discriminate].
Qed.

(** Whitespace at the end does not change what [rstrip] keeps. *)
Lemma rstrip_app_space (a w : str) :
  forallb isspace w = true -> rstrip (a ++ w) = rstrip a.
Proof.
  intros Hw. induction a as [|c a IH]; simpl.
  - induction w as [|x w IHw]; simpl; [reflexivity|].
    simpl in Hw. apply andb_prop in Hw as [Hx Hw].
    rewrite (IHw Hw). now rewrite Hx.
  - now rewrite IH.
Qed.

Lemma rstrip_all_space (w : str) : forallb isspace w = true -> rstrip w = [].
Proof. intros Hw. exact (rstrip_app_space [] w Hw). Qed.

Lemma rstrip_nil_space (s : str) : rstrip s = [] -> forallb isspace s = true.
Proof.
  intros Hr. destruct (rstrip_decomp s) as [w [Hs Hw]].
  rewrite Hr in Hs. simpl in Hs. now subst.
Qed.

Lemma lstrip_nil_space (s : str) : lstrip s = [] -> forallb isspace s = true.
Proof.
  induction s as [|c s IH]; simpl; [reflexivity|].
  destruct (isspace c); [exact IH|discriminate].
Qed.

Lemma lstrip_decomp (s : str) :
  exists w, s = w ++ lstrip s /\ forallb isspace w = true.
Proof.
  induction s as [|c s [w [Hs Hw]]]; simpl.
  - now exists [].
  - destruct (isspace c) eqn:Hc.
    + exists (c :: w). simpl. rewrite Hc, Hw. split; [now f_equal|reflexivity].
    + now exists [].
Qed.

(** ** TextEllipsizer *)

Lemma normalize_no_line_feed (text : str) : no_line_feed (normalize text).
Proof.
  unfold no_line_feed, normalize. intros Hin.
  apply strip_incl in Hin. revert Hin. apply replace_char_removes.
  discriminate.
Qed.

Lemma normalize_head_ok (text : str) : head_ok (normalize text).
Proof. apply strip_head_ok. Qed.

Lemma normalize_rstrip (text : str) : rstrip (normalize text) = normalize text.
Proof. apply rstrip_idem. Qed.

(** A string without line feed and without whitespace at either end is
    already normalized. *)
Lemma normalize_fixed (s : str) :
  no_line_feed s -> head_ok s -> rstrip s = s -> normalize s = s.
Proof.
  intros Hl Hh Hr. unfold normalize.
  rewrite str_or_nil, replace_char_absent by exact Hl.
  now apply strip_fixed.
Qed.

(** The three branches of [ellipsize]. *)
Lemma ellipsize_short (text : str) (n : Z) :
  len (normalize text) <= n -> ellipsize text n = normalize text.
Proof.
  intros H. unfold ellipsize.
  destruct (Z.leb_spec (len (normalize text)) n); [reflexivity|lia].
Qed.

Lemma ellipsize_tiny (text : str) (n : Z) :
  n < len (normalize text) -> n <= 1 -> ellipsize text n = [ELLIPSIS].
Proof.
  intros H H1. unfold ellipsize.
  destruct (Z.leb_spec (len (normalize text)) n); [lia|].
  destruct (Z.leb_spec n 1); [reflexivity|lia].
Qed.

Lemma ellipsize_long (text : str) (n : Z) :
  n < len (normalize text) -> 2 <= n ->
  ellipsize text n =
  rstrip (firstn (Z.to_nat (n - 1)) (normalize text)) ++ [ELLIPSIS].
Proof.
  intros H H2. unfold ellipsize, slice_to.
  destruct (Z.leb_spec (len (normalize text)) n); [lia|].
  destruct (Z.leb_spec n 1); [lia|].
  destruct (Z.ltb_spec (n - 1) 0); [lia|reflexivity].
Qed.

Lemma len_truncated (s : str) (n : Z) :
  2 <= n -> len (rstrip (firstn (Z.to_nat (n - 1)) s) ++ [ELLIPSIS]) <= n.
Proof.
  intros H. rewrite len_app.
  pose proof (rstrip_len (firstn (Z.to_nat (n - 1)) s)) as Hr.
  pose proof (firstn_le_length (Z.to_nat (n - 1)) s) as Hf.
  unfold len in *. simpl. lia.
Qed.

Lemma truncated_no_line_feed (s : str) (k : nat) :
  no_line_feed s -> no_line_feed (rstrip (firstn k s) ++ [ELLIPSIS]).
Proof.
  unfold no_line_feed. intros Hs Hin.
  apply in_app_or in Hin as [Hin|[Hin|[]]]; [|discriminate].
  now apply Hs, (firstn_incl k), rstrip_incl.
Qed.

(** The characters of the result: the marker, a space, or a character of
    the text that is not a line feed. *)
Lemma normalize_chars (text : str) (c : char) :
  In c (normalize text) -> c = SPACE \/ (In c text /\ c <> LF).
Proof.
  unfold normalize. rewrite str_or_nil. intros Hin.
  apply strip_incl in Hin. rewrite replace_char in Hin.
  apply in_map_iff in Hin as [a [Ha Hin]].
  destruct (N.eqb_spec LF a) as [E|E]; [now left|].
  right. subst a. split; [exact Hin|congruence].
Qed.

Lemma ellipsize_chars (text : str) (n : Z) (c : char) :
  In c (ellipsize text n) -> c = ELLIPSIS \/ In c (normalize text).
Proof.
  destruct (Z.le_gt_cases (len (normalize text)) n) as [Hle|Hgt].
  - rewrite ellipsize_short by assumption. now right.
  - destruct (Z.le_gt_cases n 1) as [H1|H2].
    + rewrite ellipsize_tiny by assumption. intros [E|[]]. now left.
    + rewrite ellipsize_long by lia. intros Hin.
      apply in_app_or in Hin as [Hin|[E|[]]]; [right|now left].
      now apply (firstn_incl (Z.to_nat (n - 1))), rstrip_incl.
Qed.

Lemma truthy_rev (s : str) : truthy (rev s) = truthy s.
Proof.
  destruct s as [|a s]; [reflexivity|].
  simpl. now destruct (rev s).
Qed.

(** A string without line boundary is one line, or none when it is empty. *)
Lemma splitlines_from_plain (cur s : str) :
  (forall c, In c s -> is_linebreak c = false) ->
  splitlines_from false cur s
  = if truthy (rev cur ++ s) then [rev cur ++ s] else [].
Proof.
  revert cur. induction s as [|a s IH]; intros cur Hs.
  - cbn [splitlines_from]. rewrite app_nil_r, truthy_rev. reflexivity.
  - cbn [splitlines_from andb]. rewrite (Hs a) by now left.
    rewrite IH by (intros c Hc; apply Hs; now right).
    cbn [rev]. now rewrite <- app_assoc.
Qed.

Lemma plain_single_line (s : str) :
  (forall c, In c s -> is_linebreak c = false) -> single_line s.
Proof.
  intros Hs. unfold single_line, splitlines.
  rewrite splitlines_from_plain by exact Hs.
  destruct (truthy _); simpl; lia.
Qed.

(** The line boundaries of the result are those of the text, the line feed
    apart: a text that holds no other gives a single line. *)
Lemma ellipsize_single_line (text : str) (n : Z) :
  only_line_feeds text -> single_line (ellipsize text n).
Proof.
  intros Ht. apply plain_single_line. intros c Hc.
  apply ellipsize_chars in Hc as [->|Hc]; [reflexivity|].
  apply normalize_chars in Hc as [->|[Hc Hlf]]; [reflexivity|].
  destruct (is_linebreak c) eqn:Hb; [|reflexivity].
  exfalso. apply Hlf. now apply Ht.
Qed.

(** [normalize] computes the normalized text of the specification. *)
Lemma collapse_line_feeds_replace (text : str) :
  collapse_line_feeds text = replace [LF] [SPACE] text.
Proof.
  rewrite replace_char. unfold collapse_line_feeds.
  apply map_ext. intros c. now rewrite N.eqb_sym.
Qed.

Lemma rstrip_last_ok (s : str) : last_ok (rstrip s).
Proof. intros p c E. exact (rstrip_last s p c E). Qed.

Lemma last_ok_rstrip (s : str) : last_ok s -> rstrip s = s.
Proof.
  intros Hl. destruct s as [|a s]; [reflexivity|].
  destruct (exists_last (l := a :: s)) as [p [c Hp]]; [discriminate|].
  rewrite Hp. apply rstrip_app_nonspace. exact (Hl p c Hp).
Qed.

Lemma strip_trimmed (s : str) : trimmed s (strip s).
Proof.
  destruct (lstrip_decomp s) as [l [Hs Hl]].
  destruct (rstrip_decomp (lstrip s)) as [r [Hr Hw]].
  exists l, r. split; [|split; [exact Hl|split; [exact Hw|split]]].
  - unfold strip. now rewrite <- Hr.
  - apply strip_head_ok.
  - apply rstrip_last_ok.
Qed.

Lemma lstrip_app_space (l s : str) :
  forallb isspace l = true -> lstrip (l ++ s) = lstrip s.
Proof.
  induction l as [|a l IH]; simpl; [reflexivity|].
  intros H. apply andb_prop in H as [Ha Hl]. rewrite Ha. now apply IH.
Qed.

Lemma trimmed_strip (s t : str) : trimmed s t -> strip s = t.
Proof.
  intros (l & r & -> & Hl & Hr & Hh & Hlast).
  unfold strip. rewrite lstrip_app_space by exact Hl.
  destruct t as [|a t].
  - simpl. rewrite <- (app_nil_r r), lstrip_app_space by exact Hr.
    reflexivity.
  - simpl in Hh. cbn [app lstrip]. rewrite Hh.
    change (a :: t ++ r) with ((a :: t) ++ r).
    rewrite rstrip_app_space by exact Hr.
    now apply last_ok_rstrip.
Qed.

Lemma spec_normalized_iff (text t : str) :
  spec_normalized text t <-> t = normalize text.
Proof.
  unfold spec_normalized, normalize.
  rewrite str_or_nil, collapse_line_feeds_replace. split.
  - intros Ht. symmetry. now apply trimmed_strip.
  - intros ->. apply strip_trimmed.
Qed.

(** C1, as the code has it.  For a positive budget the result of
    [ellipsize] is at most [max_chars] characters long and holds no line
    feed; it is a single line whenever the text holds no line boundary
    other than line feeds; the text has a normalized form in the sense of
    the specification, and when that form fits the budget the result is
    that form itself. *)
Theorem ellipsize_within_budget (text : str) (max_chars : Z) :
  0 < max_chars ->
  len (ellipsize text max_chars) <= max_chars
  /\ no_line_feed (ellipsize text max_chars)
  /\ (only_line_feeds text -> single_line (ellipsize text max_chars))
  /\ (exists t, spec_normalized text t)
  /\ (forall t, spec_normalized text t -> len t <= max_chars ->
        ellipsize text max_chars = t).
Proof.
  intros Hpos.
  assert (Hlen : len (ellipsize text max_chars) <= max_chars).
  { destruct (Z.le_gt_cases (len (normalize text)) max_chars) as [Hle|Hgt].
    - now rewrite ellipsize_short.
    - destruct (Z.le_gt_cases max_chars 1) as [H1|H2].
      + rewrite ellipsize_tiny by assumption. unfold len. simpl. lia.
      + rewrite ellipsize_long by lia. apply len_truncated. lia. }
  assert (Hlf : no_line_feed (ellipsize text max_chars)).
  { intros Hin. apply ellipsize_chars in Hin as [E|Hin]; [discriminate E|].
    now apply normalize_no_line_feed in Hin. }
  split; [exact Hlen|]. split; [exact Hlf|].
  split; [apply ellipsize_single_line|].
  split.
  - exists (normalize text). now apply spec_normalized_iff.
  - intros t Ht Hfit. apply spec_normalized_iff in Ht. subst t.
    now apply ellipsize_short.
Qed.

Lemma ellipsize_within_budget_witness :
  len (ellipsize sample_body 12) <= 12
  /\ no_line_feed (ellipsize sample_body 12)
  /\ (only_line_feeds sample_body -> single_line (ellipsize sample_body 12))
  /\ (exists t, spec_normalized sample_body t)
  /\ (forall t, spec_normalized sample_body t -> len t <= 12 ->
        ellipsize sample_body 12 = t).
Proof. apply ellipsize_within_budget. lia. Defined.

(** C1 as the specification words it, at the text "a", carriage return,
    line feed, "b" and the budget 10: line 116 replaces the line feed by a
    space and leaves the carriage return where it is, so the result holds
    a line boundary and [str.splitlines] finds two lines in it, "a" and
    " b". *)
Lemma ellipsize_two_lines :
  0 < 10
  /\ ellipsize (lit "a" ++ [CR; LF] ++ lit "b") 10
     = lit "a" ++ [CR; SPACE] ++ lit "b"
  /\ splitlines (ellipsize (lit "a" ++ [CR; LF] ++ lit "b") 10)
     = [lit "a"; lit " b"]
  /\ ~ single_line (ellipsize (lit "a" ++ [CR; LF] ++ lit "b") 10).
Proof.
  split; [lia|]. split; [reflexivity|]. split; [reflexivity|].
  unfold single_line.
  change (splitlines (ellipsize (lit "a" ++ [CR; LF] ++ lit "b") 10))
    with [lit "a"; lit " b"].
  simpl. lia.
Qed.

(** C2, as the code has it.  When the normalized text is longer than the
    budget [n >= 1], the result ends with the ellipsis and is at most [n]
    characters long; it is exactly [n] long if and only if [n] is 1 or the
    character of the normalized text at index [n - 2], the last one kept, is
    not whitespace. *)
Theorem ellipsize_truncated (text : str) (n : Z) :
  1 <= n ->
  n < len (normalize text) ->
  ends_with_ellipsis (ellipsize text n)
  /\ len (ellipsize text n) <= n
  /\ (len (ellipsize text n) = n <->
      n = 1 \/ exists c, char_at (normalize text) (n - 2) = Some c
                         /\ isspace c = false).
Proof.
  intros H1 Hgt.
  destruct (Z.le_gt_cases n 1) as [Hn|Hn].
  - rewrite ellipsize_tiny by assumption.
    split; [now exists []|]. unfold len; simpl. split; [lia|].
    split; [intros _; left; lia|lia].
  - rewrite ellipsize_long by lia.
    set (k := Z.to_nat (n - 1)).
    set (t := normalize text) in *.
    split; [now eexists|].
    split; [apply len_truncated; lia|].
    assert (Hk : Z.of_nat k <= len t) by (unfold k; lia).
    pose proof (len_firstn k t Hk) as Hlen.
    destruct (exists_last (l := firstn k t)) as [p [c Hp]].
    { intros E. rewrite E in Hlen. unfold len, k in Hlen. simpl in Hlen. lia. }
    pose proof (firstn_last k t p c Hk Hp) as Hc.
    assert (Hat : char_at t (n - 2) = Some c).
    { unfold char_at. destruct (Z.ltb_spec (n - 2) 0); [lia|].
      replace (Z.to_nat (n - 2)) with (k - 1)%nat by (unfold k; lia).
      exact Hc. }
    rewrite len_app. replace (len [ELLIPSIS]) with 1 by reflexivity.
    split.
    + intros Hl. right. exists c. split; [exact Hat|].
      apply (rstrip_last (firstn k t) p).
      rewrite rstrip_len_eq; [exact Hp|]. unfold k in *. lia.
    + intros [Hn1|[c' [Hat' Hsp]]]; [lia|].
      assert (c' = c) by congruence. subst c'.
      rewrite Hp, rstrip_app_nonspace by assumption.
      rewrite <- Hp. unfold k in *. lia.
Qed.

Lemma ellipsize_truncated_witness :
  ends_with_ellipsis (ellipsize (lit "hello world") 8)
  /\ len (ellipsize (lit "hello world") 8) <= 8
  /\ (len (ellipsize (lit "hello world") 8) = 8 <->
      8 = 1 \/ exists c, char_at (normalize (lit "hello world")) (8 - 2) = Some c
                         /\ isspace c = false).
Proof. apply ellipsize_truncated; vm_compute; congruence. Defined.

(** C2 as the specification words it, at the text "ab   cdef" and the
    budget 5: the normalized text is 9 characters long, the four characters
    kept are "ab  ", and the result "ab" with the ellipsis is 3 characters
    long, not 5. *)
Lemma ellipsize_truncated_shorter :
  1 <= 5
  /\ 5 < len (normalize (lit "ab   cdef"))
  /\ ellipsize (lit "ab   cdef") 5 = lit "ab" ++ [ELLIPSIS]
  /\ len (ellipsize (lit "ab   cdef") 5) <> 5.
Proof. repeat split; vm_compute; congruence. Qed.

(** C10.  [ellipsize] is idempotent, for every text and every budget. *)
Theorem ellipsize_idempotent (text : str) (n : Z) :
  ellipsize (ellipsize text n) n = ellipsize text n.
Proof.
  destruct (Z.le_gt_cases (len (normalize text)) n) as [Hle|Hgt].
  - rewrite (ellipsize_short text) by assumption.
    assert (Hfix : normalize (normalize text) = normalize text).
    { apply normalize_fixed;
        auto using normalize_no_line_feed, normalize_head_ok, normalize_rstrip. }
    rewrite ellipsize_short; [exact Hfix|now rewrite Hfix].
  - destruct (Z.le_gt_cases n 1) as [H1|H2].
    + rewrite (ellipsize_tiny text) by assumption.
      unfold ellipsize.
      replace (normalize [ELLIPSIS]) with [ELLIPSIS] by reflexivity.
      destruct (len [ELLIPSIS] <=? n); [reflexivity|].
      destruct (Z.leb_spec n 1); [reflexivity|lia].
    + rewrite (ellipsize_long text) by lia.
      set (r := rstrip (firstn (Z.to_nat (n - 1)) (normalize text))).
      assert (Hfix : normalize (r ++ [ELLIPSIS]) = r ++ [ELLIPSIS]).
      { apply normalize_fixed.
        - apply truncated_no_line_feed, normalize_no_line_feed.
        - assert (Hr : head_ok r)
            by apply rstrip_head_ok, firstn_head_ok, normalize_head_ok.
          destruct r; [reflexivity|exact Hr].
        - now apply rstrip_app_nonspace. }
      rewrite ellipsize_short; [exact Hfix|].
      rewrite Hfix. apply len_truncated. lia.
Qed.

(** ** Content classification *)

Section Classification.
Context `{PyLib}.

(** C5, as the code has it.  A response is classified as vector exactly
    when the declared content type contains "svg", or the whole URL ends in
    ".svg", or the URL parses and its path ends in ".svg", each taken in
    lower case; in every other case it is classified as raster. *)
Theorem looks_like_svg_iff (url : str) (content_type : option str) :
  _looks_like_svg url content_type = true <->
  (exists c, content_type = Some c
             /\ str_in (lit "svg") (str_lower c) = true)
  \/ endswith (str_lower url) (lit ".svg") = true
  \/ (exists r, urlparse url = Ok r
                /\ endswith (str_lower (path r)) (lit ".svg") = true).
Proof.
  unfold _looks_like_svg. rewrite str_or_nil.
  assert (Hc : match content_type with
               | Some c => truthy c && str_in (lit "svg") (str_lower c)
               | None => false
               end = true <->
               exists c, content_type = Some c
                         /\ str_in (lit "svg") (str_lower c) = true).
  { destruct content_type as [c|].
    - split.
      + intros Hc. apply andb_prop in Hc as [_ Hc]. now exists c.
      + intros [c' [E Hc]]. injection E as <-.
        destruct c; [now rewrite str_lower_nil in Hc|exact Hc].
    - split; [discriminate|]. now intros [c [E _]]. }
  destruct (match content_type with Some _ => _ | None => _ end).
  - split; [intros _; left; now apply Hc|reflexivity].
  - destruct (endswith (str_lower url) (lit ".svg")).
    + split; [intros _; right; now left|reflexivity].
    + destruct (urlparse url) as [r|e].
      * destruct (endswith (str_lower (path r)) (lit ".svg")) eqn:Hp.
        -- split; [intros _; right; right; now exists r|reflexivity].
        -- split; [discriminate|].
           intros [Hs|[Hu|[r' [E Hr]]]].
           ++ apply Hc in Hs. discriminate.
           ++ discriminate.
           ++ congruence.
      * split; [discriminate|].
        intros [Hs|[Hu|[r' [E _]]]].
        -- apply Hc in Hs. discriminate.
        -- discriminate.
        -- discriminate.
Qed.

End Classification.

(** C5 as the specification words it, at the URL "http://h/i?f=.svg"
    declared as "image/png": the content type does not contain "svg" and
    the path "/i" does not end in ".svg", yet the URL is classified as
    vector, because the URL as a whole ends in ".svg". *)
Lemma looks_like_svg_query_string :
  @_looks_like_svg ascii_lib query_url (Some (lit "image/png")) = true
  /\ str_in (lit "svg") (ascii_lower (lit "image/png")) = false
  /\ exists r, ascii_urlparse query_url = Ok r
               /\ path r = lit "/i"
               /\ endswith (ascii_lower (path r)) (lit ".svg") = false.
Proof.
  split; [reflexivity|]. split; [reflexivity|].
  eexists. split; [reflexivity|]. split; reflexivity.
Qed.

(** ** ImageFitter *)

(** C8.  A missing image, or an image with a side that is zero or negative,
    gives the no-image result and no exception. *)
Theorem fit_cover_degenerate (LANCZOS : Resampler) (img : option Image)
  (target_w target_h : Z) :
  img = None
  \/ (exists im, img = Some im
                 /\ (fst (size im) <= 0 \/ snd (size im) <= 0)) ->
  fit_cover LANCZOS img target_w target_h = Ok None.
Proof.
  intros [->|[im [-> Hd]]]; [reflexivity|].
  unfold fit_cover. destruct (size im) as [iw ih]. simpl in Hd.
  destruct (Z.leb_spec iw 0), (Z.leb_spec ih 0); simpl; try reflexivity; lia.
Qed.

Lemma fit_cover_degenerate_witness :
  fit_cover NEAREST (Some empty_image) 360 180 = Ok None.
Proof.
  apply fit_cover_degenerate. right. exists empty_image.
  split; [reflexivity|]. left. simpl. lia.
Defined.

(** Whatever [fit_cover] returns as an image has the size of the box. *)
Lemma fit_cover_result_size (LANCZOS : Resampler) (img : option Image)
  (target_w target_h : Z) (out : Image) :
  fit_cover LANCZOS img target_w target_h = Ok (Some out) ->
  size out = (target_w, target_h).
Proof.
  unfold fit_cover. destruct img as [im|]; [|discriminate].
  destruct (size im) as [iw ih].
  destruct ((iw <=? 0) || (ih <=? 0)); [discriminate|].
  destruct (scaled_size iw ih target_w target_h) as [[nw nh]|e];
    cbn [res_bind]; [|discriminate].
  destruct (Image_resize im (nw, nh) LANCZOS) as [rs|e];
    cbn [res_bind]; [|discriminate].
  unfold Image_crop. destruct (size rs) as [rw rh].
  destruct (_ || _); cbn [res_bind]; [discriminate|].
  destruct (_decompression_bomb_check _); cbn [res_bind]; [|discriminate].
  intros E. injection E as <-. simpl. f_equal; lia.
Qed.

(** On an image with positive sides [fit_cover] does not give the no-image
    value: it returns an image or raises. *)
Lemma fit_cover_valid_not_none (LANCZOS : Resampler) (im : Image)
  (target_w target_h : Z) :
  0 < fst (size im) -> 0 < snd (size im) ->
  fit_cover LANCZOS (Some im) target_w target_h <> Ok None.
Proof.
  intros Hw Hh. unfold fit_cover.
  destruct (size im) as [iw ih]. cbn [fst snd] in *.
  destruct (Z.leb_spec iw 0); [lia|]. destruct (Z.leb_spec ih 0); [lia|].
  cbn [orb].
  destruct (scaled_size iw ih target_w target_h) as [[nw nh]|e];
    cbn [res_bind]; [|discriminate].
  destruct (Image_resize im (nw, nh) LANCZOS) as [rs|e];
    cbn [res_bind]; [|discriminate].
  destruct (Image_crop rs _) as [out|e]; cbn [res_bind]; discriminate.
Qed.

(** The box passes the pixel limit of [Image.crop]. *)
Lemma bomb_check_passes (w h : Z) :
  0 < w -> 0 < h -> w * h <= 2 * MAX_IMAGE_PIXELS ->
  _decompression_bomb_check (Z.abs w, Z.abs h) = Ok tt.
Proof.
  intros Hw Hh Hp. unfold _decompression_bomb_check. cbn [fst snd].
  rewrite !Z.abs_eq, !Z.max_r by lia.
  destruct (Z.ltb_spec (2 * MAX_IMAGE_PIXELS) (w * h)); [lia|reflexivity].
Qed.

(** When the scale step yields sides of at least one pixel, the resampling
    routine answers and the box is within the pixel limit of [Image.crop],
    [fit_cover] returns an image of exactly the size of the box. *)
Lemma fit_cover_exact_size (LANCZOS : Resampler) (im : Image)
  (target_w target_h nw nh : Z) :
  0 < fst (size im) -> 0 < snd (size im) ->
  0 < target_w -> 0 < target_h ->
  target_w * target_h <= 2 * MAX_IMAGE_PIXELS ->
  scaled_size (fst (size im)) (snd (size im)) target_w target_h
    = Ok (nw, nh) ->
  1 <= nw -> 1 <= nh ->
  (exists px, LANCZOS im (nw, nh) = Ok px) ->
  exists out, fit_cover LANCZOS (Some im) target_w target_h = Ok (Some out)
              /\ size out = (target_w, target_h).
Proof.
  intros Hw Hh Htw Hth Hbox Hs Hnw Hnh [px Hpx].
  assert (Hok : exists out,
             fit_cover LANCZOS (Some im) target_w target_h = Ok (Some out)).
  { unfold fit_cover. destruct (size im) as [iw ih] eqn:Hsz.
    cbn [fst snd] in *.
    destruct (Z.leb_spec iw 0); [lia|]. destruct (Z.leb_spec ih 0); [lia|].
    cbn [orb]. rewrite Hs. cbn [res_bind].
    assert (Hr : exists rs, Image_resize im (nw, nh) LANCZOS = Ok rs).
    { unfold Image_resize. rewrite Hsz.
      destruct ((iw =? nw) && (ih =? nh)); [now eexists|].
      destruct (Z.ltb_spec nw 1); [lia|]. destruct (Z.ltb_spec nh 1); [lia|].
      cbn [orb]. rewrite Hpx. cbn [res_bind]. now eexists. }
    destruct Hr as [rs ->]. cbn [res_bind].
    unfold Image_crop. destruct (size rs) as [rw rh].
    destruct (Z.ltb_spec (Z.max 0 ((nw - target_w) / 2) + target_w)
                (Z.max 0 ((nw - target_w) / 2))); [lia|].
    destruct (Z.ltb_spec (Z.max 0 ((nh - target_h) / 2) + target_h)
                (Z.max 0 ((nh - target_h) / 2))); [lia|].
    cbn [orb].
    replace (Z.max 0 ((nw - target_w) / 2) + target_w
             - Z.max 0 ((nw - target_w) / 2)) with target_w by lia.
    replace (Z.max 0 ((nh - target_h) / 2) + target_h
             - Z.max 0 ((nh - target_h) / 2)) with target_h by lia.
    rewrite bomb_check_passes by assumption.
    cbn [res_bind]. now eexists. }
  destruct Hok as [out Hout]. exists out. split; [exact Hout|].
  now apply (fit_cover_result_size LANCZOS (Some im)).
Qed.

(** C3.  For a 49 by 49 image and the box 1 by 1 the factor is the double
    nearest to 1/49, its product with 49 is the double just below 1, and
    [int] truncates it to 0: the image is asked to be resized to 0 by 0 and
    [fit_cover] raises instead of returning a 1 by 1 image. *)
Theorem fit_cover_raises_on_unit_box (LANCZOS : Resampler)
  (pixels : Z -> Z -> Pixel) :
  scaled_size 49 49 1 1 = Ok (0, 0)
  /\ fit_cover LANCZOS (Some (mkImage (49, 49) pixels)) 1 1 = Raise ValueError.
Proof. split; reflexivity. Qed.

(** C6.  For a 624 by 312 image and the box 360 by 180 the scale step
    yields 359 by 179: both sides are below the sides of the box, and none
    equals one.  Over the rationals the same step yields the box itself. *)
Theorem scaled_size_falls_short :
  scaled_size 624 312 360 180 = Ok (359, 179)
  /\ rational_scaled_size 624 312 360 180 = (360, 180).
Proof. split; reflexivity. Qed.

(** Over the rationals the scale step covers the box and meets it on one
    axis. *)
Lemma Qmul_div_cancel (n d : Z) :
  0 < d -> (inject_Z d * (inject_Z n / inject_Z d) == inject_Z n)%Q.
Proof.
  intros Hd. field. unfold Qeq. simpl. lia.
Qed.

Lemma Qfloor_scaled_ge (n d : Z) (q : Q) :
  0 < d -> (inject_Z n / inject_Z d <= q)%Q -> n <= Qfloor (inject_Z d * q).
Proof.
  intros Hd Hq. rewrite <- (Qfloor_Z n) at 1.
  apply Qfloor_resp_le. rewrite <- (Qmul_div_cancel n d Hd).
  apply Qmult_le_l; [|exact Hq].
  unfold Qlt. simpl. lia.
Qed.

Lemma Qfloor_scaled_eq (n d : Z) :
  0 < d -> Qfloor (inject_Z d * (inject_Z n / inject_Z d)) = n.
Proof.
  intros Hd. rewrite (Qfloor_comp _ _ (Qmul_div_cancel n d Hd)).
  apply Qfloor_Z.
Qed.

Lemma rational_scaled_size_covers (iw ih target_w target_h : Z) :
  0 < iw -> 0 < ih ->
  let '(nw, nh) := rational_scaled_size iw ih target_w target_h in
  target_w <= nw /\ target_h <= nh /\ (nw = target_w \/ nh = target_h).
Proof.
  intros Hw Hh. unfold rational_scaled_size, Qmax2.
  destruct (Qlt_le_dec _ _) as [Hlt|Hle].
  - split; [|split].
    + apply Qfloor_scaled_ge; [exact Hw|now apply Qlt_le_weak].
    + rewrite Qfloor_scaled_eq by exact Hh. lia.
    + right. now apply Qfloor_scaled_eq.
  - split; [|split].
    + rewrite Qfloor_scaled_eq by exact Hw. lia.
    + now apply Qfloor_scaled_ge.
    + left. now apply Qfloor_scaled_eq.
Qed.

(** Where no rounding error occurs the scale step covers the box: a 4000
    by 2000 image is scaled to the box 360 by 180 itself, a 1000 by 1000
    image to 360 by 360. *)
Example scaled_size_exact :
  scaled_size 4000 2000 360 180 = Ok (360, 180)
  /\ scaled_size 1000 1000 360 180 = Ok (360, 360).
Proof. split; reflexivity. Qed.

(** The column that the scale step leaves uncovered is black in the result. *)
Lemma fit_cover_uncovered_column :
  exists out,
    fit_cover NEAREST (Some (mkImage (624, 312) (fun _ _ => grey))) 360 180
      = Ok (Some out)
    /\ size out = (360, 180)
    /\ getpixel out 358 0 = grey
    /\ getpixel out 359 0 = (0, 0, 0).
Proof. eexists. split; [reflexivity|]. repeat split. Qed.

(** ** ImageFetcher *)

(** A [try] whose handler returns always returns. *)
Lemma try_except_returns {A} (body : IO A) (handler : exn -> IO A) :
  (forall e log, exists a log', handler e log = (Ok a, log')) ->
  forall log, exists a log', try_except body handler log = (Ok a, log').
Proof.
  intros Hh log. unfold try_except.
  destruct (body log) as [[a|e] log']; [now exists a, log'|apply Hh].
Qed.

Section Fetch.
Context `{PyLib} (W : World).

(** C4.  Whatever the collaborators answer or raise, [fetch_image] returns:
    an image or the no-image value, and never an exception. *)
Theorem fetch_image_never_raises (url : str) (timeout : Z) (log : list event) :
  exists (r : option Image) (log' : list event),
    fetch_image W url timeout log = (Ok r, log').
Proof.
  unfold fetch_image.
  destruct (negb (truthy (strip (str_or url [])))).
  - now exists None, log.
  - apply try_except_returns. intros e l. now exists None, l.
Qed.

(** C9.  On an empty or all-whitespace URL [fetch_image] returns the
    no-image value and leaves the log as it is: no request is made. *)
Theorem fetch_image_blank_url (url : str) (timeout : Z) (log : list event) :
  forallb isspace url = true ->
  fetch_image W url timeout log = (Ok None, log).
Proof.
  intros Hb. unfold fetch_image.
  rewrite str_or_nil, strip_all_space by exact Hb. reflexivity.
Qed.

(** C7.  When the payload fetched is classified as vector and there is no
    rasterizer, or the rasterizer raises, [fetch_image] returns the no-image
    value and the decoder is not called. *)
Theorem fetch_image_svg_not_decoded (url : str) (timeout : Z)
  (log : list event) (resp : Response) :
  strip url <> [] ->
  requests_get W (strip url) user_agent timeout = Ok resp ->
  raise_for_status resp = Ok tt ->
  _looks_like_svg (strip url)
    (Some (headers_get (headers resp) (lit "Content-Type") [])) = true ->
  cairosvg W = None
  \/ (exists svg2png e, cairosvg W = Some svg2png
                        /\ svg2png (content resp) 1200 = Raise e) ->
  exists evs, fetch_image W url timeout log = (Ok None, log ++ evs)
              /\ no_decode evs.
Proof.
  intros Hu Hget Hst Hsvg Hras.
  unfold fetch_image. rewrite str_or_nil.
  destruct (strip url) as [|c u] eqn:Eu; [congruence|].
  cbn [truthy negb].
  unfold try_except at 1, bind at 1, call at 1. rewrite Hget.
  unfold bind at 1, pure at 1. rewrite Hst, Hsvg.
  destruct Hras as [Hnone|[svg2png [e [Hsome Hfail]]]].
  - rewrite Hnone. unfold ret.
    exists [EvGet (c :: u) user_agent timeout]. split; [reflexivity|].
    intros d [E|[]]. discriminate E.
  - rewrite Hsome. unfold try_except, bind at 1, call. rewrite Hfail.
    unfold ret. rewrite <- app_assoc.
    eexists. split; [reflexivity|].
    intros d [E|[E|[]]]; discriminate E.
Qed.

(** The failures of the collaborators all end in the no-image value: a
    request that raises (no connection, timeout), *)
Lemma fetch_image_request_fails (url : str) (timeout : Z) (log : list event)
  (e : exn) :
  strip url <> [] ->
  requests_get W (strip url) user_agent timeout = Raise e ->
  fetch_image W url timeout log
  = (Ok None, log ++ [EvGet (strip url) user_agent timeout]).
Proof.
  intros Hu Hget. unfold fetch_image. rewrite str_or_nil.
  destruct (strip url) as [|c u] eqn:Eu; [congruence|].
  cbn [truthy negb].
  unfold try_except at 1, bind at 1, call at 1. now rewrite Hget.
Qed.

(** an error status, *)
Lemma fetch_image_error_status (url : str) (timeout : Z) (log : list event)
  (resp : Response) :
  strip url <> [] ->
  requests_get W (strip url) user_agent timeout = Ok resp ->
  400 <= status_code resp < 600 ->
  fetch_image W url timeout log
  = (Ok None, log ++ [EvGet (strip url) user_agent timeout]).
Proof.
  intros Hu Hget Hst. unfold fetch_image. rewrite str_or_nil.
  destruct (strip url) as [|c u] eqn:Eu; [congruence|].
  cbn [truthy negb].
  unfold try_except at 1, bind at 1, call at 1. rewrite Hget.
  unfold bind at 1, pure at 1, raise_for_status.
  destruct (Z.leb_spec 400 (status_code resp)); [|lia].
  destruct (Z.ltb_spec (status_code resp) 600); [|lia].
  reflexivity.
Qed.

(** and a raster payload that the decoder refuses. *)
Lemma fetch_image_undecodable (url : str) (timeout : Z) (log : list event)
  (resp : Response) (e : exn) :
  strip url <> [] ->
  requests_get W (strip url) user_agent timeout = Ok resp ->
  raise_for_status resp = Ok tt ->
  _looks_like_svg (strip url)
    (Some (headers_get (headers resp) (lit "Content-Type") [])) = false ->
  Image_open W (content resp) = Raise e ->
  fetch_image W url timeout log
  = (Ok None,
     log ++ [EvGet (strip url) user_agent timeout; EvOpen (content resp)]).
Proof.
  intros Hu Hget Hst Hsvg Hopen. unfold fetch_image. rewrite str_or_nil.
  destruct (strip url) as [|c u] eqn:Eu; [congruence|].
  cbn [truthy negb].
  unfold try_except at 1, bind at 1, call at 1. rewrite Hget.
  unfold bind at 1, pure at 1. rewrite Hst, Hsvg.
  unfold bind at 1, open_rgb, bind at 1, call. rewrite Hopen.
  now rewrite <- app_assoc.
Qed.

End Fetch.

Lemma fetch_image_blank_url_witness :
  @fetch_image ascii_lib svg_world (lit "   ") default_timeout []
  = (Ok None, []).
Proof. apply (@fetch_image_blank_url ascii_lib). reflexivity. Defined.

Lemma fetch_image_svg_not_decoded_witness :
  exists evs,
    @fetch_image ascii_lib svg_world svg_url default_timeout []
    = (Ok None, [] ++ evs)
    /\ no_decode evs.
Proof.
  apply (@fetch_image_svg_not_decoded ascii_lib svg_world svg_url
           default_timeout []
           (mkResponse 200 [(lit "content-type", lit "image/svg+xml")]
              svg_payload)).
  - discriminate.
  - reflexivity.
  - reflexivity.
  - reflexivity.
  - left. reflexivity.
Defined.

(** * Further properties *)

(** ** TextEllipsizer, continued *)

Lemma forallb_isspace_app (a b : str) :
  forallb isspace (a ++ b) = forallb isspace a && forallb isspace b.
Proof. apply forallb_app. Qed.

(** [strip] gives the empty string exactly on whitespace. *)
Lemma strip_nil_iff (s : str) : strip s = [] <-> forallb isspace s = true.
Proof.
  split; [|apply strip_all_space].
  unfold strip. intros Hr. apply rstrip_nil_space in Hr.
  destruct (lstrip_decomp s) as [w [Hs Hw]].
  rewrite Hs, forallb_isspace_app, Hw, Hr. reflexivity.
Qed.

Lemma replace_char_space (s : str) :
  forallb isspace (replace [LF] [SPACE] s) = forallb isspace s.
Proof.
  rewrite replace_char.
  induction s as [|c s IH]; cbn [map forallb]; [reflexivity|].
  rewrite IH. destruct (N.eqb_spec LF c) as [<-|_]; reflexivity.
Qed.

Lemma normalize_nil_iff (text : str) :
  normalize text = [] <-> forallb isspace text = true.
Proof.
  unfold normalize. rewrite str_or_nil, strip_nil_iff.
  now rewrite replace_char_space.
Qed.

(** The result of [ellipsize] depends on the normalized text only. *)
Lemma ellipsize_normalize (s t : str) (n : Z) :
  normalize s = normalize t -> ellipsize s n = ellipsize t n.
Proof. intros E. unfold ellipsize. now rewrite E. Qed.

Lemma normalize_idem (text : str) : normalize (normalize text) = normalize text.
Proof.
  apply normalize_fixed;
    auto using normalize_no_line_feed, normalize_head_ok, normalize_rstrip.
Qed.

(** What a truncation keeps, with the marker, is normalized. *)
Lemma normalize_truncated (text : str) (k : nat) :
  let r := rstrip (firstn k (normalize text)) in
  normalize (r ++ [ELLIPSIS]) = r ++ [ELLIPSIS].
Proof.
  intros r. apply normalize_fixed.
  - apply truncated_no_line_feed, normalize_no_line_feed.
  - assert (Hr : head_ok r)
      by apply rstrip_head_ok, firstn_head_ok, normalize_head_ok.
    destruct r; [reflexivity|exact Hr].
  - now apply rstrip_app_nonspace.
Qed.

(** Cutting anywhere between what [rstrip] keeps of a prefix and that prefix
    keeps the same. *)
Lemma rstrip_firstn_between (t : str) (j k : nat) :
  (List.length (rstrip (firstn k t)) <= j <= k)%nat ->
  rstrip (firstn j t) = rstrip (firstn k t).
Proof.
  intros [Hj Hk].
  destruct (rstrip_decomp (firstn k t)) as [w [Hs Hw]].
  set (r := rstrip (firstn k t)) in *.
  assert (E : firstn j t = r ++ firstn (j - List.length r) w).
  { replace (firstn j t) with (firstn j (firstn k t)).
    - rewrite Hs, firstn_app. f_equal. apply firstn_all2. exact Hj.
    - rewrite firstn_firstn. f_equal. lia. }
  rewrite E, rstrip_app_space.
  - apply rstrip_idem.
  - rewrite <- (firstn_skipn (j - List.length r) w) in Hw.
    rewrite forallb_isspace_app in Hw. now apply andb_prop in Hw as [Hw _].
Qed.

Lemma firstn_rstrip_firstn (t : str) (j k : nat) :
  (j <= List.length (rstrip (firstn k t)))%nat ->
  firstn j (rstrip (firstn k t)) = firstn j t.
Proof.
  intros Hj.
  destruct (rstrip_decomp (firstn k t)) as [w [Hs Hw]].
  set (r := rstrip (firstn k t)) in *.
  assert (Hk : (j <= k)%nat).
  { apply (f_equal (@List.length _)) in Hs.
    rewrite length_app in Hs. pose proof (firstn_le_length k t). lia. }
  replace (firstn j t) with (firstn j (firstn k t)).
  - rewrite Hs, firstn_app.
    replace (j - List.length r)%nat with O by lia.
    simpl. now rewrite app_nil_r.
  - rewrite firstn_firstn. f_equal. lia.
Qed.

Lemma ellipsize_ellipsize_le (text : str) (m n : Z) :
  m <= n -> ellipsize (ellipsize text n) m = ellipsize text m.
Proof.
  intros Hmn.
  destruct (Z.le_gt_cases (len (normalize text)) n) as [Hle|Hgt].
  - rewrite (ellipsize_short text n Hle).
    apply ellipsize_normalize, normalize_idem.
  - destruct (Z.le_gt_cases n 1) as [H1|H2].
    + rewrite (ellipsize_tiny text n) by assumption.
      rewrite (ellipsize_tiny text m) by lia.
      unfold ellipsize.
      replace (normalize [ELLIPSIS]) with [ELLIPSIS] by reflexivity.
      destruct (len [ELLIPSIS] <=? m); [reflexivity|].
      destruct (Z.leb_spec m 1); [reflexivity|lia].
    + rewrite (ellipsize_long text n) by lia.
      set (r := rstrip (firstn (Z.to_nat (n - 1)) (normalize text))).
      pose proof (normalize_truncated text (Z.to_nat (n - 1))) as Hfix.
      cbv zeta in Hfix. fold r in Hfix.
      assert (Hrn : len r <= n - 1).
      { pose proof (rstrip_len (firstn (Z.to_nat (n - 1)) (normalize text)))
          as Ha.
        pose proof (firstn_le_length (Z.to_nat (n - 1)) (normalize text))
          as Hb.
        fold r in Ha. unfold len in *. lia. }
      destruct (Z.le_gt_cases (len (r ++ [ELLIPSIS])) m) as [Hfit|Hcut].
      * rewrite ellipsize_short by now rewrite Hfix.
        rewrite Hfix, len_app in *.
        replace (len [ELLIPSIS]) with 1 in Hfit by reflexivity.
        pose proof (len_nonneg r).
        assert (Hr0 : len r <> 0).
        { intros E0. destruct r as [|c r'] eqn:Er; [|discriminate E0].
          apply rstrip_nil_space in Er.
          pose proof (normalize_head_ok text) as Hh.
          destruct (normalize text) as [|c t'];
            [unfold len in Hgt; simpl in Hgt; lia|].
          simpl in Hh. replace (Z.to_nat (n - 1)) with (S (Z.to_nat (n - 2)))
            in Er by lia.
          simpl in Er. rewrite Hh in Er. discriminate Er. }
        rewrite (ellipsize_long text m) by lia. f_equal.
        symmetry. apply rstrip_firstn_between. fold r.
        unfold len in *. lia.
      * rewrite len_app in Hcut.
        replace (len [ELLIPSIS]) with 1 in Hcut by reflexivity.
        destruct (Z.le_gt_cases m 1) as [Hm1|Hm2].
        -- rewrite ellipsize_tiny, (ellipsize_tiny text m); try reflexivity;
             try lia.
           rewrite Hfix, len_app.
           replace (len [ELLIPSIS]) with 1 by reflexivity. lia.
        -- rewrite ellipsize_long, (ellipsize_long text m); try lia.
           ++ rewrite Hfix. f_equal. f_equal.
              rewrite firstn_app.
              replace (Z.to_nat (m - 1) - List.length r)%nat with O
                by (unfold len in *; lia).
              simpl. rewrite app_nil_r.
              apply firstn_rstrip_firstn. fold r. unfold len in *. lia.
           ++ rewrite Hfix, len_app.
              replace (len [ELLIPSIS]) with 1 by reflexivity. lia.
Qed.

(** X1.  Cutting to a budget and then to a smaller one is cutting to the
    smaller one at once. *)
Theorem ellipsize_compose (text : str) (m n : Z) :
  m <= n -> ellipsize (ellipsize text n) m = ellipsize text m.
Proof. apply ellipsize_ellipsize_le. Qed.

Lemma ellipsize_compose_witness :
  ellipsize (ellipsize sample_body 52) 38 = ellipsize sample_body 38.
Proof. apply ellipsize_compose. lia. Defined.

Lemma strip_ellipsize (text : str) (n : Z) :
  strip (ellipsize text n) = ellipsize text n.
Proof.
  destruct (Z.le_gt_cases (len (normalize text)) n) as [Hle|Hgt].
  - rewrite ellipsize_short by assumption.
    apply strip_fixed; [apply normalize_head_ok|apply normalize_rstrip].
  - destruct (Z.le_gt_cases n 1) as [H1|H2].
    + rewrite ellipsize_tiny by assumption. reflexivity.
    + rewrite ellipsize_long by lia.
      set (r := rstrip (firstn (Z.to_nat (n - 1)) (normalize text))).
      apply strip_fixed; [|now apply rstrip_app_nonspace].
      assert (Hr : head_ok r)
        by apply rstrip_head_ok, firstn_head_ok, normalize_head_ok.
      destruct r; [reflexivity|exact Hr].
Qed.

(** X2.  The result of [ellipsize] neither starts nor ends with whitespace:
    stripping it changes nothing. *)
Theorem ellipsize_trimmed (text : str) (n : Z) :
  strip (ellipsize text n) = ellipsize text n.
Proof. apply strip_ellipsize. Qed.

(** X3.  The result of [ellipsize] is the normalized text, or a prefix of
    the normalized text followed by the marker: no character is changed or
    reordered. *)
Theorem ellipsize_keeps_prefix (text : str) (n : Z) :
  ellipsize text n = normalize text
  \/ exists p q, normalize text = p ++ q
                 /\ ellipsize text n = p ++ [ELLIPSIS].
Proof.
  destruct (Z.le_gt_cases (len (normalize text)) n) as [Hle|Hgt].
  - left. now apply ellipsize_short.
  - right. destruct (Z.le_gt_cases n 1) as [H1|H2].
    + exists [], (normalize text). split; [reflexivity|].
      now apply ellipsize_tiny.
    + rewrite ellipsize_long by lia.
      set (k := Z.to_nat (n - 1)).
      destruct (rstrip_decomp (firstn k (normalize text))) as [w [Hs _]].
      exists (rstrip (firstn k (normalize text))),
        (w ++ skipn k (normalize text)).
      split; [|reflexivity].
      rewrite app_assoc, <- Hs. symmetry. apply firstn_skipn.
Qed.

Lemma ellipsize_nil_iff (text : str) (n : Z) :
  0 <= n ->
  ellipsize text n = [] <-> forallb isspace text = true.
Proof.
  intros Hn. rewrite <- normalize_nil_iff.
  destruct (Z.le_gt_cases (len (normalize text)) n) as [Hle|Hgt].
  - now rewrite ellipsize_short.
  - assert (Hne : normalize text <> []).
    { intros E. rewrite E in Hgt. unfold len in Hgt. simpl in Hgt. lia. }
    destruct (Z.le_gt_cases n 1) as [H1|H2].
    + rewrite ellipsize_tiny by assumption. split; [discriminate|tauto].
    + rewrite ellipsize_long by lia. split; [|tauto].
      intros E. destruct (rstrip _); discriminate E.
Qed.

(** X4.  For a budget that is not negative the result is empty exactly when
    the text is empty or all whitespace. *)
Theorem ellipsize_empty_iff (text : str) (n : Z) :
  0 <= n ->
  ellipsize text n = [] <-> forallb isspace text = true.
Proof. apply ellipsize_nil_iff. Qed.

Lemma ellipsize_empty_iff_witness :
  ellipsize (lit "  ") 38 = [] <-> forallb isspace (lit "  ") = true.
Proof. apply ellipsize_empty_iff. lia. Defined.

(** X5.  A budget below 1 is not kept: unless the budget is 0 and the text
    blank, the result is the marker alone, one character long. *)
Theorem ellipsize_budget_below_one (text : str) (n : Z) :
  n < 1 ->
  n < 0 \/ forallb isspace text = false ->
  ellipsize text n = [ELLIPSIS].
Proof.
  intros Hn Hc. apply ellipsize_tiny; [|lia].
  destruct Hc as [Hneg|Hnb].
  - pose proof (len_nonneg (normalize text)). lia.
  - destruct (normalize text) as [|c t] eqn:E.
    + apply normalize_nil_iff in E. congruence.
    + unfold len. simpl. lia.
Qed.

Lemma ellipsize_budget_below_one_witness :
  ellipsize (lit "Body") 0 = [ELLIPSIS].
Proof.
  apply ellipsize_budget_below_one; [lia|]. right. reflexivity.
Defined.

(** ** ImageFetcher, continued *)

(** Case analysis on the next thing a run inspects. *)
Ltac case_step :=
  match goal with
  | |- context [match ?x with _ => _ end] =>
      lazymatch x with
      | context [match _ with _ => _ end] => fail
      | _ => destruct x eqn:?
      end
  | |- context [if ?x then _ else _] =>
      lazymatch x with
      | context [if _ then _ else _] => fail
      | _ => destruct x eqn:?
      end
  end.

Section FetchCalls.
Context `{PyLib} (W : World).

(** X6.  Whitespace around the URL does not matter: [fetch_image] behaves on
    a URL as on its stripped form. *)
Theorem fetch_image_strip (url : str) (timeout : Z) (log : list event) :
  fetch_image W url timeout log = fetch_image W (strip url) timeout log.
Proof.
  unfold fetch_image. now rewrite !str_or_nil, strip_idem.
Qed.

(** X7.  A run of [fetch_image] only adds to the log, and what it adds is
    nothing, or one request for the stripped URL with the fixed header and
    the given timeout, followed by at most one decoding, or by one
    rasterization at width 1200 and at most one decoding.  No call is made
    twice. *)
Theorem fetch_image_calls (url : str) (timeout : Z) (log : list event) :
  exists evs,
    snd (fetch_image W url timeout log) = log ++ evs
    /\ (evs = []
        \/ exists rest,
             evs = EvGet (strip url) user_agent timeout :: rest
             /\ (rest = []
                 \/ (exists d, rest = [EvOpen d])
                 \/ (exists d, rest = [EvSvg2png d 1200])
                 \/ (exists d p, rest = [EvSvg2png d 1200; EvOpen p]))).
Proof.
  unfold fetch_image. rewrite str_or_nil.
  set (u := strip url).
  unfold try_except, bind, call, pure, ret, open_rgb, bind, call, pure.
  repeat case_step;
    repeat match goal with
           | E : (_, _) = (_, _) |- _ => inversion E; subst; clear E
           end;
    cbn [snd];
    rewrite <- ?app_assoc; cbn [app];
    try (exists []; split; [now rewrite app_nil_r|now left]);
    eexists; (split; [reflexivity|]); right; eexists;
      (split; [reflexivity|]); eauto 6.
Qed.

(** X8.  An image that [fetch_image] returns is the RGB conversion of what
    the decoder made of the payload of a successful request, or of the
    rasterizer's output for that payload: the request did not raise, its
    status is no error status, and the decoder and the conversion did not
    raise. *)
Theorem fetch_image_provenance (url : str) (timeout : Z)
  (log log' : list event) (img : Image) :
  fetch_image W url timeout log = (Ok (Some img), log') ->
  exists resp data decoded,
    requests_get W (strip url) user_agent timeout = Ok resp
    /\ ~ 400 <= status_code resp < 600
    /\ (data = content resp
        \/ exists svg2png, cairosvg W = Some svg2png
                           /\ svg2png (content resp) 1200 = Ok data)
    /\ Image_open W data = Ok decoded
    /\ Image_convert W decoded (lit "RGB") = Ok img.
Proof.
  unfold fetch_image. rewrite str_or_nil.
  set (u := strip url).
  unfold try_except, bind, call, pure, ret, open_rgb, bind, call, pure,
    raise_for_status.
  repeat case_step;
    repeat match goal with
           | E : (_, _) = (_, _) |- _ => inversion E; subst; clear E
           end;
    intros E; inversion E; subst; clear E;
    match goal with
    | Hr : requests_get _ _ _ _ = Ok ?resp, Ho : Image_open W ?d = Ok ?x
      |- _ => exists resp, d, x
    end;
    (split; [reflexivity|]);
    (split;
     [match goal with
      | E : andb _ _ = false |- _ =>
          apply andb_false_iff in E as [E|E];
          [apply Z.leb_gt in E|apply Z.ltb_ge in E]; lia
      end|]);
    (split; [|split; assumption]);
    first [left; reflexivity
          |right; eexists; split; [reflexivity|eassumption]].
Qed.

End FetchCalls.

Lemma fetch_image_provenance_witness :
  exists resp data decoded,
    requests_get raster_world (strip png_url) user_agent default_timeout
    = Ok resp
    /\ ~ 400 <= status_code resp < 600
    /\ (data = content resp
        \/ exists svg2png, cairosvg raster_world = Some svg2png
                           /\ svg2png (content resp) 1200 = Ok data)
    /\ Image_open raster_world data = Ok decoded
    /\ Image_convert raster_world decoded (lit "RGB") = Ok grey_image.
Proof.
  apply (@fetch_image_provenance ascii_lib raster_world png_url
           default_timeout []
           [EvGet (strip png_url) user_agent default_timeout;
            EvOpen png_payload]).
  reflexivity.
Defined.

(** ** ImageFitter, continued *)

Lemma Image_resize_size (im rs : Image) (w h : Z) (resample : Resampler) :
  Image_resize im (w, h) resample = Ok rs -> size rs = (w, h).
Proof.
  unfold Image_resize. destruct (size im) as [iw ih] eqn:Hsz.
  destruct ((iw =? w) && (ih =? h)) eqn:Hsame.
  - intros E. injection E as <-. apply andb_prop in Hsame as [Hw Hh].
    apply Z.eqb_eq in Hw, Hh. congruence.
  - destruct ((w <? 1) || (h <? 1)); [discriminate|].
    destruct (resample im (w, h)); cbn [res_bind]; [|discriminate].
    intros E. now injection E as <-.
Qed.

(** What [Image.crop] returns: the box is in order and within the pixel
    limit, and the region is the part of the image under the box, black
    where the box leaves the image. *)
Lemma Image_crop_ok (im out : Image) (l t r b : Z) :
  Image_crop im (l, t, r, b) = Ok out ->
  l <= r /\ t <= b
  /\ Z.max 1 (r - l) * Z.max 1 (b - t) <= 2 * MAX_IMAGE_PIXELS
  /\ size out = (r - l, b - t)
  /\ forall x y,
       getpixel out x y
       = if (0 <=? x + l) && (x + l <? fst (size im))
            && (0 <=? y + t) && (y + t <? snd (size im))
         then getpixel im (x + l) (y + t) else (0, 0, 0).
Proof.
  unfold Image_crop. destruct (size im) as [iw ih].
  destruct (Z.ltb_spec r l); [discriminate|].
  destruct (Z.ltb_spec b t); [discriminate|].
  cbn [orb]. unfold _decompression_bomb_check. cbn [fst snd].
  rewrite !Z.abs_eq by lia.
  destruct (Z.ltb_spec (2 * MAX_IMAGE_PIXELS)
              (Z.max 1 (r - l) * Z.max 1 (b - t)));
    cbn [res_bind]; [discriminate|].
  intros E. injection E as <-. cbn [size getpixel].
  repeat split; assumption.
Qed.

(** X9.  Whenever [fit_cover] returns an image, the image is the window of
    the scaled image that has the size of the box: the box has no negative
    side and passes the pixel limit of [Image.crop], the window starts at
    an offset that is not negative, on an axis on which the scaled image
    covers the box the window is centred (the margins cut off on opposite
    sides differ by at most one pixel), and every pixel of the result is
    the pixel of the scaled image at the window's offset, or black where
    the window leaves the scaled image. *)
Theorem fit_cover_window (LANCZOS : Resampler) (im out : Image)
  (target_w target_h : Z) :
  fit_cover LANCZOS (Some im) target_w target_h = Ok (Some out) ->
  exists nw nh resized left top,
    scaled_size (fst (size im)) (snd (size im)) target_w target_h
      = Ok (nw, nh)
    /\ Image_resize im (nw, nh) LANCZOS = Ok resized
    /\ size out = (target_w, target_h)
    /\ 0 <= target_w /\ 0 <= target_h
    /\ Z.max 1 target_w * Z.max 1 target_h <= 2 * MAX_IMAGE_PIXELS
    /\ 0 <= left /\ 0 <= top
    /\ (target_w <= nw -> 0 <= (nw - target_w - left) - left <= 1)
    /\ (target_h <= nh -> 0 <= (nh - target_h - top) - top <= 1)
    /\ forall x y, 0 <= x < target_w -> 0 <= y < target_h ->
         getpixel out x y
         = if (x + left <? nw) && (y + top <? nh)
           then getpixel resized (x + left) (y + top) else (0, 0, 0).
Proof.
  unfold fit_cover. destruct (size im) as [iw ih]. cbn [fst snd].
  destruct ((iw <=? 0) || (ih <=? 0)); [discriminate|].
  destruct (scaled_size iw ih target_w target_h) as [[nw nh]|e];
    cbn [res_bind]; [|discriminate].
  destruct (Image_resize im (nw, nh) LANCZOS) as [rs|e] eqn:Hr;
    cbn [res_bind]; [|discriminate].
  pose proof (Image_resize_size _ _ _ _ _ Hr) as Hsz.
  set (left := Z.max 0 ((nw - target_w) / 2)).
  set (top := Z.max 0 ((nh - target_h) / 2)).
  destruct (Image_crop rs (left, top, left + target_w, top + target_h))
    as [o|e] eqn:Hc; cbn [res_bind]; [|discriminate].
  intros E. injection E as ->.
  apply Image_crop_ok in Hc as (Hlr & Htb & Hpix & Hso & Hpx).
  rewrite Hsz in Hpx. cbn [fst snd] in Hpx.
  replace (left + target_w - left) with target_w in * by lia.
  replace (top + target_h - top) with target_h in * by lia.
  assert (Hl0 : 0 <= left) by (unfold left; lia).
  assert (Ht0 : 0 <= top) by (unfold top; lia).
  assert (Hlc : target_w <= nw -> 0 <= (nw - target_w - left) - left <= 1).
  { intros Hcov. unfold left.
    pose proof (Z.div_mod (nw - target_w) 2 ltac:(lia)).
    pose proof (Z.mod_pos_bound (nw - target_w) 2 ltac:(lia)). lia. }
  assert (Htc : target_h <= nh -> 0 <= (nh - target_h - top) - top <= 1).
  { intros Hcov. unfold top.
    pose proof (Z.div_mod (nh - target_h) 2 ltac:(lia)).
    pose proof (Z.mod_pos_bound (nh - target_h) 2 ltac:(lia)). lia. }
  exists nw, nh, rs, left, top.
  split; [reflexivity|]. split; [exact Hr|]. split; [exact Hso|].
  split; [lia|]. split; [lia|]. split; [exact Hpix|].
  split; [exact Hl0|]. split; [exact Ht0|].
  split; [exact Hlc|]. split; [exact Htc|].
  intros x y Hx Hy. rewrite Hpx.
  destruct (Z.leb_spec 0 (x + left)); [|lia].
  destruct (Z.leb_spec 0 (y + top)); [|lia].
  cbn [andb].
  destruct (x + left <? nw); reflexivity.
Qed.

Lemma fit_cover_window_witness :
  fit_cover NEAREST (Some gradient_image) 360 180 = Ok (Some gradient_fitted)
  /\ exists nw nh resized left top,
       scaled_size (fst (size gradient_image)) (snd (size gradient_image))
         360 180 = Ok (nw, nh)
       /\ Image_resize gradient_image (nw, nh) NEAREST = Ok resized
       /\ size gradient_fitted = (360, 180)
       /\ 0 <= 360 /\ 0 <= 180
       /\ Z.max 1 360 * Z.max 1 180 <= 2 * MAX_IMAGE_PIXELS
       /\ 0 <= left /\ 0 <= top
       /\ (360 <= nw -> 0 <= (nw - 360 - left) - left <= 1)
       /\ (180 <= nh -> 0 <= (nh - 180 - top) - top <= 1)
       /\ forall x y, 0 <= x < 360 -> 0 <= y < 180 ->
            getpixel gradient_fitted x y
            = if (x + left <? nw) && (y + top <? nh)
              then getpixel resized (x + left) (y + top) else (0, 0, 0).
Proof.
  split; [reflexivity|].
  apply (fit_cover_window NEAREST gradient_image gradient_fitted 360 180).
  reflexivity.
Defined.

(** ** PreviewRenderer *)

Lemma str_eqb_eq (a b : str) : str_eqb a b = true <-> a = b.
Proof.
  unfold str_eqb. destruct (list_eq_dec N.eq_dec a b); split; congruence.
Qed.

Lemma ellipsize_len_le (text : str) (n : Z) :
  1 <= n -> len (ellipsize text n) <= n.
Proof.
  intros Hn.
  destruct (Z.le_gt_cases (len (normalize text)) n) as [Hle|Hgt].
  - now rewrite ellipsize_short.
  - destruct (Z.le_gt_cases n 1) as [H1|H2].
    + rewrite ellipsize_tiny by assumption. unfold len. simpl. lia.
    + rewrite ellipsize_long by lia. apply len_truncated. lia.
Qed.

Lemma ellipsize_no_line_feed (text : str) (n : Z) :
  no_line_feed (ellipsize text n).
Proof.
  destruct (Z.le_gt_cases (len (normalize text)) n) as [Hle|Hgt].
  - rewrite ellipsize_short by assumption. apply normalize_no_line_feed.
  - destruct (Z.le_gt_cases n 1) as [H1|H2].
    + rewrite ellipsize_tiny by assumption. intros [E|[]]. discriminate E.
    + rewrite ellipsize_long by lia.
      apply truncated_no_line_feed, normalize_no_line_feed.
Qed.

(** The text shown for an input is not blank: it is the stripped input, or
    the fallback word when that is empty. *)
Lemma str_else_strip_nonblank (x d : str) :
  forallb isspace d = false ->
  forallb isspace (str_else (strip x) d) = false.
Proof.
  intros Hd. unfold str_else.
  destruct (strip x) as [|c s] eqn:E; [exact Hd|].
  cbn [truthy]. rewrite <- E.
  destruct (forallb isspace (strip x)) eqn:Hb; [|reflexivity].
  apply strip_all_space in Hb. rewrite strip_idem in Hb. congruence.
Qed.

Lemma shown_label_ok (x d : str) (n : Z) :
  forallb isspace d = false -> 1 <= n ->
  label_ok (ellipsize (str_else (strip x) d) n) n.
Proof.
  intros Hd Hn. repeat split.
  - intros E. apply ellipsize_nil_iff in E; [|lia].
    now rewrite str_else_strip_nonblank in E.
  - now apply ellipsize_len_le.
  - apply ellipsize_no_line_feed.
  - apply strip_ellipsize.
Qed.

Lemma label_ok_le (s : str) (m n : Z) : m <= n -> label_ok s m -> label_ok s n.
Proof. unfold label_ok. intros Hmn (Hne & Hl & Hs & Ht). repeat split; auto; lia. Qed.

(** What [set_content] leaves in the labels and what it does not touch,
    whether it raises or not. *)
Lemma set_content_labels_eq (LANCZOS : Resampler) (self : Preview)
  (title body : str) (img : option Image) :
  let self' := snd (set_content LANCZOS self title body img) in
  (title_label self', body_label self')
  = display_texts (pv_mode self) (strip title) (strip body)
  /\ body_wraplength self' = 420
  /\ pv_mode self' = pv_mode self
  /\ big_canvas_size self' = big_canvas_size self
  /\ icon_canvas self' = icon_canvas self
  /\ _photo_icon self' = _photo_icon self.
Proof.
  unfold set_content. rewrite !str_or_nil.
  destruct (display_texts _ _ _) as [dt db].
  cbn [set_labels pv_mode].
  destruct (str_eqb (pv_mode self) (lit "expanded")); [|now repeat split].
  destruct img as [im|]; [|now repeat split].
  destruct (fit_cover _ _ _ _) as [fitted|e]; [|now repeat split].
  destruct (ImageTk_PhotoImage fitted) as [ph|e]; now repeat split.
Qed.

(** The text shown for an input has no line boundary that the input has
    not. *)
Lemma shown_single_line (x d : str) (n : Z) :
  only_line_feeds x -> only_line_feeds d ->
  single_line (ellipsize (str_else (strip x) d) n).
Proof.
  intros Hx Hd. apply ellipsize_single_line. unfold str_else.
  destruct (truthy (strip x)); [|exact Hd].
  intros c Hc. apply Hx. now apply strip_incl.
Qed.

Lemma fallback_only_line_feeds (d : str) :
  forallb (fun c => negb (is_linebreak c)) d = true -> only_line_feeds d.
Proof.
  intros Hd c Hc Hb. rewrite forallb_forall in Hd.
  apply Hd in Hc. rewrite Hb in Hc. discriminate Hc.
Qed.

(** X10.  Whatever the inputs, the mode and the image, and whether the
    method raises or not, [set_content] leaves in the title label a text
    that is not empty, holds no line feed, has no whitespace at either end
    and is at most 52 characters long, 38 in the collapsed mode; in the body
    label such a text of at most 220 characters, 92 in the collapsed mode.
    A label is a single line whenever the text given for it holds no line
    boundary other than line feeds: the other boundaries are left as they
    are inside a text. *)
Theorem set_content_labels (LANCZOS : Resampler) (self : Preview)
  (title body : str) (img : option Image) :
  let self' := snd (set_content LANCZOS self title body img) in
  label_ok (title_label self') 52
  /\ label_ok (body_label self') 220
  /\ (pv_mode self = lit "collapsed" ->
      label_ok (title_label self') 38 /\ label_ok (body_label self') 92)
  /\ (only_line_feeds title -> single_line (title_label self'))
  /\ (only_line_feeds body -> single_line (body_label self')).
Proof.
  intros self'.
  destruct (set_content_labels_eq LANCZOS self title body img) as [E _].
  fold self' in E. unfold display_texts in E.
  assert (Ht : forall n, only_line_feeds title ->
                 single_line (ellipsize (str_else (strip title) (lit "Title")) n)).
  { intros n Hx. apply shown_single_line; [exact Hx|].
    now apply fallback_only_line_feeds. }
  assert (Hb : forall n, only_line_feeds body ->
                 single_line (ellipsize (str_else (strip body) (lit "Body")) n)).
  { intros n Hx. apply shown_single_line; [exact Hx|].
    now apply fallback_only_line_feeds. }
  destruct (str_eqb (pv_mode self) (lit "collapsed")) eqn:Hm;
    injection E as -> ->.
  - split; [|split; [|split; [intros _; split|split]]].
    + apply (label_ok_le _ 38 52); [lia|]. now apply shown_label_ok.
    + apply (label_ok_le _ 92 220); [lia|]. now apply shown_label_ok.
    + now apply shown_label_ok.
    + now apply shown_label_ok.
    + apply Ht.
    + apply Hb.
  - split; [|split; [|split; [|split]]]; try now apply shown_label_ok.
    + intros Hc. apply str_eqb_eq in Hc. congruence.
    + apply Ht.
    + apply Hb.
Qed.

(** A carriage return inside the title stays in the label, which is then
    two lines for [str.splitlines]. *)
Example set_content_title_two_lines :
  title_label
    (snd (set_content NEAREST (new_preview (lit "collapsed"))
            (lit "a" ++ [CR] ++ lit "b") [] None))
  = lit "a" ++ [CR] ++ lit "b"
  /\ splitlines (lit "a" ++ [CR] ++ lit "b") = [lit "a"; lit "b"].
Proof. split; reflexivity. Qed.

Lemma set_content_blank_labels (LANCZOS : Resampler) (self : Preview)
  (title body : str) (img : option Image) :
  let self' := snd (set_content LANCZOS self title body img) in
  (forallb isspace title = true -> title_label self' = lit "Title")
  /\ (forallb isspace body = true -> body_label self' = lit "Body").
Proof.
  intros self'.
  destruct (set_content_labels_eq LANCZOS self title body img) as [E _].
  fold self' in E. unfold display_texts in E.
  split; intros Hb; apply strip_all_space in Hb; rewrite Hb in E;
    destruct (str_eqb (pv_mode self) (lit "collapsed"));
    injection E as Et Eb; first [exact Et|exact Eb].
Qed.

(** X11.  A title that is empty or all whitespace is shown as "Title", a
    body that is empty or all whitespace as "Body", in either mode. *)
Theorem set_content_blank (LANCZOS : Resampler) (self : Preview)
  (title body : str) (img : option Image) :
  let self' := snd (set_content LANCZOS self title body img) in
  (forallb isspace title = true -> title_label self' = lit "Title")
  /\ (forallb isspace body = true -> body_label self' = lit "Body").
Proof. apply set_content_blank_labels. Qed.

Lemma set_content_not_expanded (LANCZOS : Resampler) (self : Preview)
  (title body : str) (img : option Image) :
  pv_mode self <> lit "expanded" ->
  fst (set_content LANCZOS self title body img) = Ok tt
  /\ big_canvas (snd (set_content LANCZOS self title body img))
     = big_canvas self
  /\ _photo_big (snd (set_content LANCZOS self title body img))
     = _photo_big self.
Proof.
  intros Hm. unfold set_content.
  destruct (display_texts _ _ _) as [dt db].
  cbn [set_labels pv_mode].
  destruct (str_eqb (pv_mode self) (lit "expanded")) eqn:E.
  - apply str_eqb_eq in E. contradiction.
  - now repeat split.
Qed.

(** X12.  Outside the expanded mode [set_content] does not raise and leaves
    the big canvas and its image as they are, whatever the image given. *)
Theorem set_content_collapsed_frame (LANCZOS : Resampler) (self : Preview)
  (title body : str) (img : option Image) :
  pv_mode self <> lit "expanded" ->
  fst (set_content LANCZOS self title body img) = Ok tt
  /\ big_canvas (snd (set_content LANCZOS self title body img))
     = big_canvas self
  /\ _photo_big (snd (set_content LANCZOS self title body img))
     = _photo_big self.
Proof. apply set_content_not_expanded. Qed.

Lemma set_content_collapsed_frame_witness :
  fst (set_content NEAREST
         (mkPreview (lit "collapsed") [] [] 0 [] (1, 1) None [] None)
         (lit "Breaking News") sample_body (Some grey_image)) = Ok tt
  /\ big_canvas
       (snd (set_content NEAREST
               (mkPreview (lit "collapsed") [] [] 0 [] (1, 1) None [] None)
               (lit "Breaking News") sample_body (Some grey_image)))
     = big_canvas
         (mkPreview (lit "collapsed") [] [] 0 [] (1, 1) None [] None)
  /\ _photo_big
       (snd (set_content NEAREST
               (mkPreview (lit "collapsed") [] [] 0 [] (1, 1) None [] None)
               (lit "Breaking News") sample_body (Some grey_image)))
     = _photo_big
         (mkPreview (lit "collapsed") [] [] 0 [] (1, 1) None [] None).
Proof. apply set_content_collapsed_frame. discriminate. Defined.

(** Without an image [set_content] does not raise. *)
Lemma set_content_none_ok (LANCZOS : Resampler) (self : Preview)
  (title body : str) :
  fst (set_content LANCZOS self title body None) = Ok tt.
Proof.
  unfold set_content. destruct (display_texts _ _ _) as [dt db].
  now destruct (str_eqb _ _).
Qed.

Lemma set_content_expanded_canvas (LANCZOS : Resampler) (self self' : Preview)
  (title body : str) (img : option Image) :
  pv_mode self = lit "expanded" ->
  set_content LANCZOS self title body img = (Ok tt, self') ->
  match img with
  | None =>
      big_canvas self'
      = placeholder_items (fst (canvas_box self)) (snd (canvas_box self))
      /\ _photo_big self' = None
  | Some _ =>
      exists out,
        big_canvas self' = [ImageItem 0 0 (mkPhoto out) (lit "nw")]
        /\ _photo_big self' = Some (mkPhoto out)
        /\ size out = canvas_box self
  end.
Proof.
  intros Hm. unfold set_content.
  destruct (display_texts _ _ _) as [dt db].
  cbn [set_labels pv_mode]. rewrite Hm.
  replace (str_eqb (lit "expanded") (lit "expanded")) with true
    by reflexivity.
  cbn [set_big_canvas big_canvas_size].
  destruct img as [im|].
  - destruct (fit_cover _ _ _ _) as [fitted|e] eqn:Hfit; [|discriminate].
    destruct fitted as [out|]; cbn [ImageTk_PhotoImage]; [|discriminate].
    intros E. injection E as <-. exists out.
    repeat split. apply fit_cover_result_size in Hfit. exact Hfit.
  - intros E. injection E as <-. now split.
Qed.

(** X13.  In the expanded mode, when [set_content] returns, the big canvas
    holds either the placeholder, drawn over the whole canvas, exactly when
    no image was given, or one picture whose size is exactly that of the
    canvas; a canvas that reports the width or height 0 counts as 360 wide
    or 180 high. *)
Theorem set_content_expanded (LANCZOS : Resampler) (self self' : Preview)
  (title body : str) (img : option Image) :
  pv_mode self = lit "expanded" ->
  set_content LANCZOS self title body img = (Ok tt, self') ->
  match img with
  | None =>
      big_canvas self'
      = placeholder_items (fst (canvas_box self)) (snd (canvas_box self))
      /\ _photo_big self' = None
  | Some _ =>
      exists out,
        big_canvas self' = [ImageItem 0 0 (mkPhoto out) (lit "nw")]
        /\ _photo_big self' = Some (mkPhoto out)
        /\ size out = canvas_box self
  end.
Proof. apply set_content_expanded_canvas. Qed.

Lemma set_content_expanded_witness :
  big_canvas
    (snd (set_content NEAREST
            (mkPreview (lit "expanded") [] [] 0 [] (0, 0) None [] None)
            [] [] None))
  = placeholder_items
      (fst (canvas_box
              (mkPreview (lit "expanded") [] [] 0 [] (0, 0) None [] None)))
      (snd (canvas_box
              (mkPreview (lit "expanded") [] [] 0 [] (0, 0) None [] None)))
  /\ _photo_big
       (snd (set_content NEAREST
               (mkPreview (lit "expanded") [] [] 0 [] (0, 0) None [] None)
               [] [] None))
     = None.
Proof.
  apply (set_content_expanded NEAREST
           (mkPreview (lit "expanded") [] [] 0 [] (0, 0) None [] None)
           _ [] [] None); reflexivity.
Defined.

(** ** The application *)

Lemma set_both_none_ok (LANCZOS : Resampler) (self : App) (title body : str) :
  fst (set_both LANCZOS self title body None) = Ok tt.
Proof.
  unfold set_both.
  pose proof (set_content_none_ok LANCZOS (collapsed self) title body) as Hc.
  destruct (set_content LANCZOS (collapsed self) title body None) as [r1 c].
  cbn [fst] in Hc. subst r1. cbn [expanded].
  pose proof (set_content_none_ok LANCZOS (expanded self) title body) as Hx.
  destruct (set_content LANCZOS (expanded self) title body None) as [r2 x].
  exact Hx.
Qed.

(** What [set_both] leaves: the previews after their [set_content], the
    rest untouched; the expanded preview is reached when the collapsed one
    did not raise. *)
Lemma set_both_fields (LANCZOS : Resampler) (self : App) (title body : str)
  (img : option Image) :
  let self' := snd (set_both LANCZOS self title body img) in
  collapsed self'
  = snd (set_content LANCZOS (collapsed self) title body img)
  /\ (fst (set_content LANCZOS (collapsed self) title body img) = Ok tt ->
      expanded self'
      = snd (set_content LANCZOS (expanded self) title body img))
  /\ dialogs self' = dialogs self
  /\ _last_img self' = _last_img self
  /\ title_var self' = title_var self
  /\ body_text self' = body_text self
  /\ img_var self' = img_var self.
Proof.
  unfold set_both.
  destruct (set_content LANCZOS (collapsed self) title body img) as [r1 c].
  destruct r1 as [[]|e].
  - cbn [expanded].
    destruct (set_content LANCZOS (expanded self) title body img) as [r2 x].
    now repeat split.
  - repeat split. discriminate.
Qed.

Section Generate.
Context `{PyLib} (W : World) (LANCZOS : Resampler).

Lemma fetch_image_ok (url : str) (timeout : Z) (log : list event) :
  exists img log', fetch_image W url timeout log = (Ok img, log').
Proof.
  unfold fetch_image.
  destruct (negb (truthy (strip (str_or url [])))).
  - now exists None, log.
  - apply try_except_returns. intros e l. now exists None, l.
Qed.

(** X14.  With an empty or all-whitespace URL field [generate] makes no
    call to the network or the decoder, opens no dialog, keeps no image
    and does not raise. *)
Theorem generate_blank_url (self : App) (log : list event) :
  forallb isspace (img_var self) = true ->
  let '(r, self', log') := generate W LANCZOS self log in
  r = Ok tt /\ log' = log /\ dialogs self' = dialogs self
  /\ _last_img self' = None.
Proof.
  intros Hb. unfold generate. rewrite (strip_all_space _ Hb).
  cbn [truthy].
  set (app := set_last_img self None).
  set (t := title_var self). set (b := strip (text_get (body_text self))).
  pose proof (set_both_none_ok LANCZOS app t b) as Hr.
  destruct (set_both_fields LANCZOS app t b None)
    as (_ & _ & Hd & Hl & _).
  destruct (set_both LANCZOS app t b None) as [r self'].
  cbn [fst snd] in *. now repeat split.
Qed.

(** X15.  With a URL field that is not blank [generate] calls
    [fetch_image] once, on the stripped URL with the default timeout; the
    image it keeps is what that call returned, the log is the one that call
    left, and the warning dialog is opened, once, exactly when the call
    returned the no-image value.  With a blank URL field nothing is
    fetched, no image is kept and no dialog is opened. *)
Theorem generate_warning (self : App) (log : list event) :
  let '(r, self', log') := generate W LANCZOS self log in
  (strip (img_var self) = []
   /\ log' = log /\ _last_img self' = None
   /\ dialogs self' = dialogs self)
  \/ (strip (img_var self) <> []
      /\ exists fetched,
           fetch_image W (strip (img_var self)) default_timeout log
           = (Ok fetched, log')
           /\ _last_img self' = fetched
           /\ dialogs self'
              = dialogs self
                ++ match fetched with
                   | None => [load_failed]
                   | Some _ => []
                   end).
Proof.
  unfold generate.
  set (t := title_var self). set (b := strip (text_get (body_text self))).
  destruct (strip (img_var self)) as [|c u] eqn:Eu; cbn [truthy].
  - destruct (set_both_fields LANCZOS (set_last_img self None) t b None)
      as (_ & _ & Hd & Hl & _).
    destruct (set_both _ _ _ _ _) as [r self'].
    cbn [snd] in Hd, Hl. left. now repeat split.
  - destruct (fetch_image_ok (c :: u) default_timeout log)
      as [img [log' E]].
    rewrite E. destruct img as [im|].
    + destruct (set_both_fields LANCZOS (set_last_img self (Some im)) t b
                  (Some im)) as (_ & _ & Hd & Hl & _).
      destruct (set_both _ _ _ _ _) as [r self'].
      cbn [snd] in Hd, Hl. right. split; [discriminate|].
      exists (Some im).
      split; [reflexivity|]. split; [exact Hl|].
      rewrite app_nil_r. exact Hd.
    + destruct (set_both_fields LANCZOS
                  (set_last_img (show self load_failed) None) t b None)
        as (_ & _ & Hd & Hl & _).
      destruct (set_both _ _ _ _ _) as [r self'].
      cbn [snd] in Hd, Hl. right. split; [discriminate|].
      exists None.
      split; [reflexivity|]. split; [exact Hl|exact Hd].
Qed.

(** X16.  After [generate] the two previews show the same texts, the
    collapsed one cut further: its title is the expanded title cut to 38
    characters and its body the expanded body cut to 92, whether the
    expanded preview could draw its picture or raised. *)
Theorem generate_previews_agree (self : App) (log : list event) :
  pv_mode (collapsed self) = lit "collapsed" ->
  pv_mode (expanded self) = lit "expanded" ->
  let '(r, self', log') := generate W LANCZOS self log in
  title_label (collapsed self') = ellipsize (title_label (expanded self')) 38
  /\ body_label (collapsed self') = ellipsize (body_label (expanded self')) 92.
Proof.
  intros Hc Hx. unfold generate.
  set (t := title_var self). set (b := strip (text_get (body_text self))).
  assert (Hgen : forall app img,
             collapsed app = collapsed self -> expanded app = expanded self ->
             let self' := snd (set_both LANCZOS app t b img) in
             title_label (collapsed self')
             = ellipsize (title_label (expanded self')) 38
             /\ body_label (collapsed self')
                = ellipsize (body_label (expanded self')) 92).
  { intros app img Eca Exa self'.
    destruct (set_both_fields LANCZOS app t b img) as (Hcs & Hxs & _).
    fold self' in Hcs, Hxs.
    assert (Hm : pv_mode (collapsed app) <> lit "expanded")
      by (rewrite Eca, Hc; discriminate).
    destruct (set_content_not_expanded LANCZOS (collapsed app) t b img Hm)
      as [Hok _].
    specialize (Hxs Hok).
    destruct (set_content_labels_eq LANCZOS (collapsed app) t b img)
      as [Elc _].
    destruct (set_content_labels_eq LANCZOS (expanded app) t b img)
      as [Elx _].
    rewrite <- Hcs in Elc. rewrite <- Hxs in Elx.
    rewrite Eca, Hc in Elc. rewrite Exa, Hx in Elx.
    unfold display_texts in Elc, Elx.
    replace (str_eqb (lit "collapsed") (lit "collapsed")) with true in Elc
      by reflexivity.
    replace (str_eqb (lit "expanded") (lit "collapsed")) with false in Elx
      by reflexivity.
    injection Elc as -> ->. injection Elx as -> ->.
    split; symmetry; apply ellipsize_ellipsize_le; lia. }
  destruct (strip (img_var self)) as [|c u] eqn:Eu; cbn [truthy].
  - specialize (Hgen (set_last_img self None) None eq_refl eq_refl).
    destruct (set_both _ _ _ _ _) as [r self']. exact Hgen.
  - destruct (fetch_image_ok (c :: u) default_timeout log)
      as [img [log' ->]].
    destruct img as [im|].
    + specialize (Hgen (set_last_img self (Some im)) (Some im)
                    eq_refl eq_refl).
      destruct (set_both _ _ _ _ _) as [r self']. exact Hgen.
    + specialize (Hgen (set_last_img (show self load_failed) None) None
                    eq_refl eq_refl).
      destruct (set_both _ _ _ _ _) as [r self']. exact Hgen.
Qed.

End Generate.

Lemma generate_blank_url_witness :
  let '(r, self', log') := @generate ascii_lib svg_world NEAREST new_app [] in
  r = Ok tt /\ log' = [] /\ dialogs self' = dialogs new_app
  /\ _last_img self' = None.
Proof.
  apply (@generate_blank_url ascii_lib svg_world NEAREST new_app []).
  reflexivity.
Defined.

Lemma generate_previews_agree_witness :
  let '(r, self', log') := @generate ascii_lib svg_world NEAREST new_app [] in
  title_label (collapsed self') = ellipsize (title_label (expanded self')) 38
  /\ body_label (collapsed self') = ellipsize (body_label (expanded self')) 92.
Proof.
  apply (@generate_previews_agree ascii_lib svg_world NEAREST new_app []);
    reflexivity.
Defined.

(** X17.  [clear] does not raise; it empties the three inputs, drops the
    image, opens no dialog, and leaves "Title" and "Body" in the labels of
    both previews and the placeholder on the big canvas of the expanded
    one. *)
Theorem clear_resets (LANCZOS : Resampler) (self : App) :
  pv_mode (collapsed self) = lit "collapsed" ->
  pv_mode (expanded self) = lit "expanded" ->
  let '(r, self') := clear LANCZOS self in
  r = Ok tt
  /\ title_var self' = [] /\ body_text self' = [] /\ img_var self' = []
  /\ _last_img self' = None /\ dialogs self' = dialogs self
  /\ title_label (collapsed self') = lit "Title"
  /\ body_label (collapsed self') = lit "Body"
  /\ title_label (expanded self') = lit "Title"
  /\ body_label (expanded self') = lit "Body"
  /\ big_canvas (expanded self')
     = placeholder_items (fst (canvas_box (expanded self)))
         (snd (canvas_box (expanded self))).
Proof.
  intros Hc Hx. unfold clear.
  set (app := mkApp [] [] [] None (collapsed self) (expanded self)
                (dialogs self)).
  pose proof (set_both_none_ok LANCZOS app [] []) as Hok.
  destruct (set_both_fields LANCZOS app [] [] None)
    as (Hcs & Hxs & Hd & Hl & Ht & Hb & Hi).
  specialize (Hxs (set_content_none_ok LANCZOS (collapsed app) [] [])).
  destruct (set_both LANCZOS app [] [] None) as [r self'].
  cbn [fst snd] in *.
  destruct (set_content_blank_labels LANCZOS (collapsed self) [] [] None)
    as [Htc Hbc].
  destruct (set_content_labels_eq LANCZOS (expanded self) [] [] None)
    as [Elx _].
  rewrite Hcs, Hxs. cbn [collapsed expanded app].
  repeat split; auto.
  - rewrite Hx in Elx. now injection Elx as -> _.
  - rewrite Hx in Elx. now injection Elx as _ ->.
  - pose proof (set_content_none_ok LANCZOS (expanded self) [] []) as Hr.
    destruct (set_content LANCZOS (expanded self) [] [] None) as [rx x] eqn:E.
    cbn [fst snd] in *. subst rx.
    now destruct (set_content_expanded_canvas LANCZOS (expanded self) x [] []
                    None
                    Hx E).
Qed.

Lemma clear_resets_witness :
  let '(r, self') := clear NEAREST new_app in
  r = Ok tt
  /\ title_var self' = [] /\ body_text self' = [] /\ img_var self' = []
  /\ _last_img self' = None /\ dialogs self' = dialogs new_app
  /\ title_label (collapsed self') = lit "Title"
  /\ body_label (collapsed self') = lit "Body"
  /\ title_label (expanded self') = lit "Title"
  /\ body_label (expanded self') = lit "Body"
  /\ big_canvas (expanded self')
     = placeholder_items (fst (canvas_box (expanded new_app)))
         (snd (canvas_box (expanded new_app))).
Proof. apply (clear_resets NEAREST new_app); reflexivity. Defined.

(** ** The icon of a preview *)

(** X18.  [_draw_default_icon] does not raise and always leaves two items on
    the icon canvas: the blue disc with the letter "A", or the dark disc
    with the logo, which is then exactly 30 by 30 whatever the size of the
    file's image.  Without a file "logo.png", or when decoding, converting
    or resizing it raises, it is the letter, and the image reference is
    kept as it was.  The labels and the big canvas are not touched. *)
Theorem draw_default_icon_items (F : Files) (W : World) (LANCZOS : Resampler)
  (self : Preview) :
  let self' := _draw_default_icon F W LANCZOS self in
  (icon_canvas self' = fallback_icon /\ _photo_icon self' = _photo_icon self
   \/ exists logo,
        icon_canvas self'
        = [Oval 3 3 33 33 (lit "#2b2b2b") [];
           ImageItem 18 18 (mkPhoto logo) (lit "center")]
        /\ _photo_icon self' = Some (mkPhoto logo)
        /\ size logo = (30, 30))
  /\ (os_path_exists F (lit "logo.png") = false
      \/ (exists e, load_logo F W LANCZOS (lit "logo.png") = Raise e) ->
      icon_canvas self' = fallback_icon)
  /\ title_label self' = title_label self
  /\ body_label self' = body_label self
  /\ big_canvas self' = big_canvas self
  /\ _photo_big self' = _photo_big self.
Proof.
  unfold _draw_default_icon.
  destruct (os_path_exists F (lit "logo.png")) eqn:Hex.
  - destruct (load_logo F W LANCZOS (lit "logo.png")) as [ph|e] eqn:Hl.
    + split; [|split; [|now repeat split]].
      * right. unfold load_logo in Hl.
        destruct (Image_open_path F (lit "logo.png")) as [a|?];
          cbn [res_bind] in Hl; [|discriminate].
        destruct (Image_convert W a (lit "RGBA")) as [b|?];
          cbn [res_bind] in Hl; [|discriminate].
        destruct (Image_resize b (30, 30) LANCZOS) as [c|?] eqn:Hr;
          cbn [res_bind ImageTk_PhotoImage] in Hl; [|discriminate].
        injection Hl as <-. exists c. repeat split.
        now apply Image_resize_size in Hr.
      * intros [Hf|[e He]]; discriminate.
    + split; [now left|]. now repeat split.
  - split; [now left|]. now repeat split.
Qed.

(** ** Binary64 rounding *)

Lemma digits2_pos_size (p : positive) : digits2_pos p = Pos.size p.
Proof. induction p; simpl; congruence. Qed.

(** The number of binary digits of a positive number. *)
Lemma Zdigits2_bounds (p : positive) :
  2 ^ (Zdigits2 (Z.pos p) - 1) <= Z.pos p < 2 ^ Zdigits2 (Z.pos p).
Proof.
  cbn [Zdigits2]. rewrite digits2_pos_size.
  pose proof (Pos.size_gt p) as Hgt. pose proof (Pos.size_le p) as Hle.
  apply Pos2Z.pos_lt_pos in Hgt. apply Pos2Z.pos_le_pos in Hle.
  rewrite Pos2Z.inj_pow in Hgt, Hle.
  replace (Z.pos (Pos.size p)) with (Z.pos (Pos.size p) - 1 + 1) in Hle by lia.
  rewrite Z.pow_add_r in Hle by lia.
  change (Z.pos p~0) with (2 * Z.pos p) in Hle. lia.
Qed.

Lemma Zdigits2_pos (p : positive) : 1 <= Zdigits2 (Z.pos p).
Proof. cbn [Zdigits2]. lia. Qed.

Lemma Zdigits2_unique (m d : Z) :
  2 ^ (d - 1) <= m < 2 ^ d -> 1 <= d -> Zdigits2 m = d.
Proof.
  intros [Hlo Hhi] Hd.
  assert (0 < m) by (pose proof (Z.pow_pos_nonneg 2 (d - 1)); lia).
  destruct m as [|p|p]; try lia.
  pose proof (Zdigits2_bounds p) as [Blo Bhi].
  pose proof (Zdigits2_pos p) as Hp.
  set (k := Zdigits2 (Z.pos p)) in *.
  destruct (Z.lt_trichotomy k d) as [Hlt|[Heq|Hgt]]; [|exact Heq|].
  - assert (2 ^ k <= 2 ^ (d - 1)) by (apply Z.pow_le_mono_r; lia). lia.
  - assert (2 ^ d <= 2 ^ (k - 1)) by (apply Z.pow_le_mono_r; lia). lia.
Qed.

(** Shifting a mantissa right halves it. *)
Lemma shr_1_m (mrs : shr_record) :
  0 <= shr_m mrs -> shr_m (shr_1 mrs) = shr_m mrs / 2.
Proof.
  destruct mrs as [m r s]. cbn [shr_m]. intros Hm. unfold shr_1.
  destruct m as [|[p|p|]|p]; cbn [shr_m]; try lia.
  - reflexivity.
  - rewrite Pos2Z.inj_xI. apply Z.div_unique with 1; lia.
  - rewrite Pos2Z.inj_xO. apply Z.div_unique with 0; lia.
  - reflexivity.
Qed.

Lemma iter_pos_shr_m (n : positive) (mrs : shr_record) :
  0 <= shr_m mrs ->
  shr_m (iter_pos shr_1 n mrs) = shr_m mrs / 2 ^ Z.pos n.
Proof.
  revert mrs. induction n as [n IH|n IH|]; intros mrs Hm; cbn [iter_pos].
  - assert (H1 : 0 <= shr_m (shr_1 mrs)).
    { rewrite shr_1_m by exact Hm. apply Z.div_pos; lia. }
    assert (H2 : 0 <= shr_m (iter_pos shr_1 n (shr_1 mrs))).
    { rewrite IH by exact H1. apply Z.div_pos; lia. }
    rewrite IH, IH, shr_1_m by assumption.
    rewrite !Z.div_div by lia. f_equal.
    replace (Z.pos n~1) with (1 + Z.pos n + Z.pos n) by lia.
    rewrite !Z.pow_add_r by lia. lia.
  - assert (H2 : 0 <= shr_m (iter_pos shr_1 n mrs)).
    { rewrite IH by exact Hm. apply Z.div_pos; lia. }
    rewrite IH, IH by assumption.
    rewrite !Z.div_div by lia. f_equal.
    replace (Z.pos n~0) with (Z.pos n + Z.pos n) by lia.
    rewrite !Z.pow_add_r by lia. lia.
  - now apply shr_1_m.
Qed.

(** [shr] by [n] places divides the mantissa by [2 ^ n] and adds [n] to the
    exponent. *)
Lemma shr_spec (mrs : shr_record) (e n : Z) :
  0 <= shr_m mrs -> 0 <= n ->
  shr_m (fst (shr mrs e n)) = shr_m mrs / 2 ^ n /\ snd (shr mrs e n) = e + n.
Proof.
  intros Hm Hn. unfold shr. destruct n as [|p|p]; cbn [fst snd]; try lia.
  - rewrite Z.div_1_r. lia.
  - split; [now apply iter_pos_shr_m|reflexivity].
Qed.

Lemma shr_zero (mrs : shr_record) (e : Z) : shr mrs e 0 = (mrs, e).
Proof. reflexivity. Qed.

Lemma loc_of_shr_record_of_loc (m : Z) (l : location) :
  loc_of_shr_record (shr_record_of_loc m l) = l.
Proof. destruct l as [|[]]; reflexivity. Qed.

Lemma shr_m_of_loc (m : Z) (l : location) : shr_m (shr_record_of_loc m l) = m.
Proof. destruct l as [|[]]; reflexivity. Qed.

Lemma round_nearest_even_range (m : Z) (l : location) :
  m <= round_nearest_even m l <= m + 1.
Proof.
  unfold round_nearest_even. destruct l as [|[]]; try lia.
  destruct (Z.even m); lia.
Qed.

Lemma pow2_split (a b : Z) : 0 <= a -> 0 <= b -> 2 ^ (a + b) = 2 ^ a * 2 ^ b.
Proof. intros. now apply Z.pow_add_r. Qed.

(** Rounding a positive mantissa of at least 53 digits, away from the
    subnormal numbers and from overflow: the result is a normal number, its
    exponent is that of the 53 leading digits or one more, and it is not
    below the 53 leading digits. *)
Lemma round_aux_pos (mx ex : Z) (lx : location) :
  0 < mx ->
  53 <= Zdigits2 mx ->
  -1074 <= ex + Zdigits2 mx - 53 ->
  ex + Zdigits2 mx <= 1023 ->
  let n := Zdigits2 mx - 53 in
  let E := ex + n in
  exists m e,
    binary_round_aux prec64 emax64 false mx ex lx = S754_finite false m e
    /\ 2 ^ 52 <= Z.pos m < 2 ^ 53
    /\ E <= e <= E + 1
    /\ 2 ^ 52 <= mx / 2 ^ n <= Z.pos m * 2 ^ (e - E)
    /\ (n = 0 -> lx = loc_Exact -> Z.pos m = mx /\ e = ex).
Proof.
  intros Hmx Hd Hlo Hhi n E.
  unfold binary_round_aux, shr_fexp.
  replace (fexp prec64 emax64 (Zdigits2 mx + ex) - ex) with n
    by (unfold fexp, emin, prec64, emax64, n; lia).
  assert (Hn : 0 <= n) by (unfold n; lia).
  destruct (shr_spec (shr_record_of_loc mx lx) ex n) as [HT He'].
  { rewrite shr_m_of_loc. lia. }
  { exact Hn. }
  rewrite shr_m_of_loc in HT.
  assert (Hexact : n = 0 -> lx = loc_Exact ->
            round_nearest_even
              (shr_m (fst (shr (shr_record_of_loc mx lx) ex n)))
              (loc_of_shr_record (fst (shr (shr_record_of_loc mx lx) ex n)))
            = mx).
  { intros -> ->. reflexivity. }
  destruct (shr (shr_record_of_loc mx lx) ex n) as [mrs' e'].
  cbn [fst snd] in HT, He', Hexact. subst e'. fold E.
  set (T := shr_m mrs') in *.
  assert (HTb : 2 ^ 52 <= T < 2 ^ 53).
  { destruct mx as [|p|p]; try lia.
    pose proof (Zdigits2_bounds p) as [Blo Bhi].
    replace (Zdigits2 (Z.pos p) - 1) with (n + 52) in Blo by (unfold n; lia).
    replace (Zdigits2 (Z.pos p)) with (n + 53) in Bhi by (unfold n; lia).
    rewrite pow2_split in Blo, Bhi by lia.
    assert (0 < 2 ^ n) by (apply Z.pow_pos_nonneg; lia).
    rewrite HT. split.
    - apply Z.div_le_lower_bound; lia.
    - apply Z.div_lt_upper_bound; lia. }
  pose proof (round_nearest_even_range T (loc_of_shr_record mrs')) as Hr.
  set (m1 := round_nearest_even T (loc_of_shr_record mrs')) in *.
  destruct (Z.lt_ge_cases m1 (2 ^ 53)) as [Hsmall|Hbig].
  - assert (Hd1 : Zdigits2 m1 = 53)
      by (apply Zdigits2_unique; [change (53 - 1) with 52|]; lia).
    rewrite Hd1.
    replace (fexp prec64 emax64 (53 + E) - E) with 0
      by (unfold fexp, emin, prec64, emax64, E; lia).
    rewrite shr_zero. cbn [shr_m]. rewrite shr_m_of_loc.
    destruct m1 as [|m|m] eqn:Em1; try lia.
    replace (E <=? emax64 - prec64) with true
      by (symmetry; apply Z.leb_le; unfold emax64, prec64, E; lia).
    exists m, E. split; [reflexivity|]. split; [lia|]. split; [lia|].
    split.
    + rewrite Z.sub_diag, Z.mul_1_r. lia.
    + intros H0 Hl. specialize (Hexact H0 Hl). unfold E. lia.
  - assert (Em1 : m1 = 2 ^ 53) by lia.
    assert (Hd1 : Zdigits2 m1 = 54)
      by (rewrite Em1; reflexivity).
    rewrite Hd1.
    replace (fexp prec64 emax64 (54 + E) - E) with 1
      by (unfold fexp, emin, prec64, emax64, E; lia).
    rewrite Em1.
    replace (shr (shr_record_of_loc (2 ^ 53) loc_Exact) E 1)
      with (Build_shr_record (Z.pos 4503599627370496) false false, E + 1)
      by reflexivity.
    cbn [shr_m].
    replace (E + 1 <=? emax64 - prec64) with true
      by (symmetry; apply Z.leb_le; unfold emax64, prec64, E; lia).
    exists 4503599627370496%positive, (E + 1). split; [reflexivity|].
    split; [split; [now apply Z.leb_le|reflexivity]|]. split; [lia|].
    split.
    + replace (E + 1 - E) with 1 by lia.
      change (Z.pos 4503599627370496 * 2 ^ 1) with (2 ^ 53). lia.
    + intros H0 Hl. specialize (Hexact H0 Hl).
      rewrite H0, Z.pow_0_r, Z.div_1_r in HT. lia.
Qed.

(** ** The value of a float *)

Section FloatValue.
Local Open Scope Q_scope.


Lemma pow2_add (a b : Z) : pow2 (a + b) == pow2 a * pow2 b.
Proof. unfold pow2. apply Qpower_plus. discriminate. Qed.

Lemma pow2_Z (e : Z) : (0 <= e)%Z -> pow2 e == inject_Z (2 ^ e).
Proof. intros He. unfold pow2. now rewrite Zpower_Qpower. Qed.

Lemma pow2_pos (e : Z) : 0 < pow2 e.
Proof.
  destruct (Z.le_gt_cases 0 e) as [He|He].
  - rewrite pow2_Z by exact He. change 0 with (inject_Z 0).
    rewrite <- Zlt_Qlt. apply Z.pow_pos_nonneg; lia.
  - assert (Hp : 0 < pow2 (- e)).
    { rewrite pow2_Z by lia. change 0 with (inject_Z 0).
      rewrite <- Zlt_Qlt. apply Z.pow_pos_nonneg; lia. }
    assert (E : pow2 e * pow2 (- e) == 1).
    { rewrite <- pow2_add. replace (e + - e)%Z with 0%Z by lia. reflexivity. }
    destruct (Qlt_le_dec 0 (pow2 e)) as [H|H]; [exact H|].
    exfalso. assert (pow2 e * pow2 (- e) <= 0); [|lra].
    rewrite <- (Qmult_0_l (pow2 (- e))).
    apply Qmult_le_compat_r; lra.
Qed.


Lemma inject_Z_pow52 : inject_Z (2 ^ 52) == 4503599627370496.
Proof. reflexivity. Qed.

(** Rounding loses at most the relative error [eps] downwards. *)
Lemma round_aux_val (mx ex : Z) (lx : location) :
  (0 < mx)%Z ->
  (53 <= Zdigits2 mx)%Z ->
  (-1074 <= ex + Zdigits2 mx - 53)%Z ->
  (ex + Zdigits2 mx <= 1023)%Z ->
  exists m e,
    binary_round_aux prec64 emax64 false mx ex lx = S754_finite false m e
    /\ (2 ^ 52 <= Z.pos m < 2 ^ 53)%Z
    /\ (ex + Zdigits2 mx - 53 <= e <= ex + Zdigits2 mx - 52)%Z
    /\ inject_Z mx * pow2 ex <= val m e * (1 + eps)
    /\ (Zdigits2 mx = 53%Z -> lx = loc_Exact -> Z.pos m = mx /\ e = ex).
Proof.
  intros Hmx Hd Hlo Hhi.
  destruct (round_aux_pos mx ex lx Hmx Hd Hlo Hhi)
    as (m & e & Hr & Hm & He & [HT1 HT2] & Hex).
  cbv zeta in *.
  set (n := (Zdigits2 mx - 53)%Z) in *.
  set (E := (ex + n)%Z) in *.
  set (T := (mx / 2 ^ n)%Z) in *.
  exists m, e. split; [exact Hr|]. split; [exact Hm|].
  split; [unfold E, n in He; lia|]. split.
  - assert (Hn : (0 <= n)%Z) by (unfold n; lia).
    assert (HpE : pow2 E == inject_Z (2 ^ n) * pow2 ex).
    { unfold E. rewrite Z.add_comm, pow2_add, pow2_Z by exact Hn.
      reflexivity. }
    assert (Hpe : pow2 e == inject_Z (2 ^ (e - E)) * pow2 E).
    { replace e with ((e - E) + E)%Z at 1 by lia.
      rewrite pow2_add, pow2_Z by lia. reflexivity. }
    assert (Hlt : (mx < (T + 1) * 2 ^ n)%Z).
    { assert (0 < 2 ^ n)%Z by (apply Z.pow_pos_nonneg; lia).
      pose proof (Z.div_mod mx (2 ^ n) ltac:(lia)) as Hdm.
      pose proof (Z.mod_pos_bound mx (2 ^ n) ltac:(lia)) as Hmb.
      fold T in Hdm. lia. }
    pose proof (pow2_pos ex) as Hpx. pose proof (pow2_pos E) as HpE0.
    assert (H1 : inject_Z mx * pow2 ex <= inject_Z (T + 1) * pow2 E).
    { rewrite HpE, Qmult_assoc, <- inject_Z_mult.
      apply Qmult_le_compat_r; [|lra].
      rewrite <- Zle_Qle. lia. }
    assert (H2 : inject_Z (T + 1) <= inject_Z T * (1 + eps)).
    { rewrite inject_Z_plus.
      assert (HTq : inject_Z (2 ^ 52) <= inject_Z T)
        by (rewrite <- Zle_Qle; exact HT1).
      rewrite inject_Z_pow52 in HTq. unfold eps.
      change (inject_Z 1) with 1. lra. }
    assert (H3 : inject_Z T * pow2 E <= val m e).
    { unfold val. rewrite Hpe, Qmult_assoc, <- inject_Z_mult.
      apply Qmult_le_compat_r; [|lra].
      rewrite <- Zle_Qle. exact HT2. }
    assert (H4 : inject_Z (T + 1) * pow2 E
                 <= inject_Z T * (1 + eps) * pow2 E)
      by (apply Qmult_le_compat_r; lra).
    assert (H5 : inject_Z T * (1 + eps) * pow2 E
                 == inject_Z T * pow2 E * (1 + eps)) by ring.
    assert (H6 : inject_Z T * pow2 E * (1 + eps) <= val m e * (1 + eps)).
    { apply Qmult_le_compat_r; [exact H3|]. unfold eps. lra. }
    lra.
  - intros H53 Hl. apply Hex; [unfold n; lia|exact Hl].
Qed.

End FloatValue.

Lemma Zdigits2_ge (p : positive) (k : Z) :
  2 ^ (k - 1) <= Z.pos p -> 1 <= k -> k <= Zdigits2 (Z.pos p).
Proof.
  intros Hk H1. pose proof (Zdigits2_bounds p) as [_ Bhi].
  pose proof (Zdigits2_pos p).
  destruct (Z.le_gt_cases k (Zdigits2 (Z.pos p))) as [H'|H']; [exact H'|].
  assert (2 ^ Zdigits2 (Z.pos p) <= 2 ^ (k - 1))
    by (apply Z.pow_le_mono_r; lia). lia.
Qed.

Lemma Zdigits2_le (p : positive) (k : Z) :
  Z.pos p < 2 ^ k -> 0 <= k -> Zdigits2 (Z.pos p) <= k.
Proof.
  intros Hk H0. pose proof (Zdigits2_bounds p) as [Blo _].
  pose proof (Zdigits2_pos p).
  destruct (Z.le_gt_cases (Zdigits2 (Z.pos p)) k) as [H'|H']; [exact H'|].
  assert (2 ^ k <= 2 ^ (Zdigits2 (Z.pos p) - 1))
    by (apply Z.pow_le_mono_r; lia). lia.
Qed.

Lemma Pos_iter_xO (p d : positive) :
  Z.pos (Pos.iter xO p d) = Z.pos p * 2 ^ Z.pos d.
Proof.
  induction d as [|d IH] using Pos.peano_ind.
  - cbn [Pos.iter]. lia.
  - rewrite Pos.iter_succ, Pos2Z.inj_xO, IH, Pos2Z.inj_succ.
    rewrite Z.pow_succ_r by lia. lia.
Qed.

(** [float(b)] is exact for an integer below [2 ^ 53]; here for one below
    [2 ^ 31]. *)
Lemma float_of_int_exact (b : Z) :
  0 < b < 2 ^ 31 ->
  exists m e,
    float_of_int b = Ok (S754_finite false m e)
    /\ 2 ^ 52 <= Z.pos m < 2 ^ 53
    /\ -52 <= e <= -22
    /\ Z.pos m = b * 2 ^ (- e)
    /\ (val m e == inject_Z b)%Q.
Proof.
  intros [Hb0 Hb1]. destruct b as [|p|p]; try lia.
  pose proof (Zdigits2_bounds p) as [Blo Bhi].
  pose proof (Zdigits2_pos p) as Hd1.
  pose proof (Zdigits2_le p 31 Hb1 ltac:(lia)) as Hd2.
  set (d := Zdigits2 (Z.pos p)) in *.
  unfold float_of_int, binary_normalize, binary_round.
  change (Z.pos (digits2_pos p)) with d.
  replace (fexp prec64 emax64 (d + 0)) with (d - 53)
    by (unfold fexp, emin, prec64, emax64; lia).
  unfold shl_align.
  destruct (d - 53 - 0) as [|k|k] eqn:Ek; try lia.
  assert (Hk : Z.pos k = 53 - d) by lia.
  pose proof (Pos_iter_xO p k) as Hz. rewrite Hk in Hz.
  set (mz := Pos.iter xO p k) in *.
  assert (Hpow : 2 ^ (53 - d) * 2 ^ (d - 1) = 2 ^ 52)
    by (rewrite <- Z.pow_add_r by lia; f_equal; lia).
  assert (Hpow' : 2 ^ (53 - d) * 2 ^ d = 2 ^ 53)
    by (rewrite <- Z.pow_add_r by lia; f_equal; lia).
  assert (H0 : 0 < 2 ^ (53 - d)) by (apply Z.pow_pos_nonneg; lia).
  assert (Hmz : 2 ^ 52 <= Z.pos mz < 2 ^ 53) by (rewrite Hz; nia).
  assert (Hdz : Zdigits2 (Z.pos mz) = 53)
    by (apply Zdigits2_unique; [exact Hmz|lia]).
  destruct (round_aux_val (Z.pos mz) (d - 53) loc_Exact)
    as (m & e & Hr & Hm & He & _ & Hex); try lia.
  destruct (Hex Hdz eq_refl) as [Em Ee].
  rewrite Hr. cbn [finite_or_overflow].
  exists m, e. split; [reflexivity|]. split; [exact Hm|]. split; [lia|].
  split; [rewrite Em, Hz, Ee; f_equal; f_equal; lia|].
  unfold val. rewrite Em, Hz, Ee, inject_Z_mult.
  rewrite <- pow2_Z by lia.
  rewrite <- Qmult_assoc, <- pow2_add.
  replace (53 - d + (d - 53)) with 0 by lia.
  change (pow2 0) with 1%Q. ring.
Qed.

(** [a / b] on positive integers below [2 ^ 31]: the quotient is a normal
    number and at most two roundings below the exact one. *)
Lemma int_truediv_val (a b : Z) :
  0 < a < 2 ^ 31 -> 0 < b < 2 ^ 31 ->
  exists m e,
    int_truediv a b = Ok (S754_finite false m e)
    /\ 2 ^ 52 <= Z.pos m < 2 ^ 53
    /\ -83 <= e <= -21
    /\ (inject_Z a <= inject_Z b * val m e * ((1 + eps) * (1 + eps)))%Q.
Proof.
  intros [Ha0 Ha1] [Hb0 Hb1].
  destruct a as [|pa|pa]; try lia. destruct b as [|pb|pb]; try lia.
  pose proof (Zdigits2_bounds pa) as [Alo Ahi].
  pose proof (Zdigits2_pos pa) as Hda1.
  pose proof (Zdigits2_le pa 31 Ha1 ltac:(lia)) as Hda2.
  pose proof (Zdigits2_bounds pb) as [Blo Bhi].
  pose proof (Zdigits2_pos pb) as Hdb1.
  pose proof (Zdigits2_le pb 31 Hb1 ltac:(lia)) as Hdb2.
  set (da := Zdigits2 (Z.pos pa)) in *.
  set (db := Zdigits2 (Z.pos pb)) in *.
  set (s := 53 + db - da).
  unfold int_truediv. cbn [Z.eqb exact_int SFdiv xorb].
  unfold SFdiv_core_binary. fold da db.
  replace (Z.min (fexp prec64 emax64 (da + 0 - (db + 0))) (0 - 0)) with (- s)
    by (unfold fexp, emin, prec64, emax64, s; lia).
  replace (0 - 0 - - s) with s by lia.
  destruct s as [|ps|ps] eqn:Es; try (unfold s in Es; lia).
  rewrite <- Es. rewrite Z.shiftl_mul_pow2 by lia.
  pose proof (Z.div_eucl_eq (Z.pos pa * 2 ^ s) (Z.pos pb) ltac:(lia)) as Hdm.
  pose proof (Z.mod_pos_bound (Z.pos pa * 2 ^ s) (Z.pos pb) ltac:(lia)) as Hmb.
  unfold Z.modulo in Hmb.
  destruct (Z.div_eucl (Z.pos pa * 2 ^ s) (Z.pos pb)) as [q r].
  assert (Hs0 : 0 < 2 ^ s) by (apply Z.pow_pos_nonneg; lia).
  assert (Hp1 : 2 ^ s * 2 ^ (da - 1) = 2 ^ 52 * 2 ^ db).
  { rewrite <- !Z.pow_add_r by lia. f_equal. lia. }
  assert (Hp2 : 2 ^ s * 2 ^ da = 2 ^ 54 * 2 ^ (db - 1)).
  { rewrite <- !Z.pow_add_r by lia. f_equal. lia. }
  assert (Hdb0 : 0 < 2 ^ (db - 1)) by (apply Z.pow_pos_nonneg; lia).
  assert (Hq : 2 ^ 52 <= q < 2 ^ 54) by nia.
  destruct q as [|pq|pq]; try lia.
  pose proof (Zdigits2_ge pq 53 ltac:(change (53 - 1) with 52; lia)
                ltac:(lia)) as Hdq1.
  pose proof (Zdigits2_le pq 54 ltac:(lia) ltac:(lia)) as Hdq2.
  destruct (round_aux_val (Z.pos pq) (- s) (new_location (Z.pos pb) r))
    as (m & e & Hr & Hm & He & Hv & _); try lia.
  rewrite Hr. cbn [finite_or_overflow].
  exists m, e. split; [reflexivity|]. split; [exact Hm|]. split; [lia|].
  (* a * 2^s < (q + 1) * b and q + 1 <= q * (1 + eps) *)
  assert (Hlt : Z.pos pa * 2 ^ s <= (Z.pos pq + 1) * Z.pos pb) by lia.
  rewrite Zle_Qle in Hlt. rewrite !inject_Z_mult, inject_Z_plus in Hlt.
  change (inject_Z 1) with 1%Q in Hlt.
  assert (Hqq : (inject_Z (2 ^ 52) <= inject_Z (Z.pos pq))%Q)
    by (rewrite <- Zle_Qle; lia).
  rewrite inject_Z_pow52 in Hqq.
  pose proof (pow2_pos (- s)) as Hps.
  assert (Hone : (inject_Z (2 ^ s) * pow2 (- s) == 1)%Q).
  { rewrite <- pow2_Z by lia. rewrite <- pow2_add.
    replace (s + - s) with 0 by lia. reflexivity. }
  set (A := inject_Z (Z.pos pa)) in *.
  set (B := inject_Z (Z.pos pb)) in *.
  set (Qq := inject_Z (Z.pos pq)) in *.
  set (V := val m e) in *.
  set (P2 := inject_Z (2 ^ s)) in *.
  set (I2 := pow2 (- s)) in *.
  assert (HB : (0 < B)%Q) by (unfold B; change 0%Q with (inject_Z 0);
                              rewrite <- Zlt_Qlt; lia).
  (* A = A * P2 * I2 <= (Qq + 1) * B * I2 <= Qq (1+eps) B I2 <= B V (1+eps)^2 *)
  assert (H1 : (A * P2 * I2 <= (Qq + 1) * B * I2)%Q)
    by (apply Qmult_le_compat_r; [exact Hlt|lra]).
  assert (H2 : (A * P2 * I2 == A)%Q)
    by (rewrite <- Qmult_assoc, Hone; ring).
  assert (H3 : ((Qq + 1) * B * I2 <= Qq * (1 + eps) * B * I2)%Q).
  { apply Qmult_le_compat_r; [|lra]. apply Qmult_le_compat_r; [|lra].
    unfold eps. lra. }
  assert (H4 : (Qq * (1 + eps) * B * I2 == B * (1 + eps) * (Qq * I2))%Q)
    by ring.
  assert (H5 : (B * (1 + eps) * (Qq * I2)
                <= B * (1 + eps) * (V * (1 + eps)))%Q).
  { apply Qmult_le_l; [|exact Hv].
    apply Qmult_lt_0_compat; [exact HB|unfold eps; lra]. }
  assert (H6 : (B * (1 + eps) * (V * (1 + eps))
                == B * V * ((1 + eps) * (1 + eps)))%Q) by ring.
  lra.
Qed.

Lemma pow2_le (a b : Z) : a <= b -> (pow2 a <= pow2 b)%Q.
Proof.
  intros Hab. replace b with ((b - a) + a) by lia.
  rewrite pow2_add, (pow2_Z (b - a)) by lia.
  pose proof (pow2_pos a).
  assert (H1 : (1 <= inject_Z (2 ^ (b - a)))%Q).
  { change 1%Q with (inject_Z 1). rewrite <- Zle_Qle.
    pose proof (Z.pow_pos_nonneg 2 (b - a)). lia. }
  rewrite <- (Qmult_1_l (pow2 a)) at 1.
  apply Qmult_le_compat_r; lra.
Qed.

(** On normal numbers a smaller exponent is a smaller value. *)
Lemma val_lt_exp (m1 m2 : positive) (e1 e2 : Z) :
  2 ^ 52 <= Z.pos m1 < 2 ^ 53 -> 2 ^ 52 <= Z.pos m2 < 2 ^ 53 ->
  e1 < e2 -> (val m1 e1 < val m2 e2)%Q.
Proof.
  intros [_ H1] [H2 _] He. unfold val.
  pose proof (pow2_pos e1) as Hp1. pose proof (pow2_pos e2) as Hp2.
  pose proof (pow2_le (e1 + 1) e2 ltac:(lia)) as Hle.
  rewrite pow2_add in Hle. change (pow2 1) with 2%Q in Hle.
  rewrite Zlt_Qlt in H1. rewrite Zle_Qle in H2.
  change (inject_Z (2 ^ 53)) with 9007199254740992%Q in H1.
  rewrite inject_Z_pow52 in H2.
  assert (A1 : (inject_Z (Z.pos m1) * pow2 e1
                < 9007199254740992 * pow2 e1)%Q)
    by (apply Qmult_lt_compat_r; assumption).
  assert (A2 : (4503599627370496 * pow2 e2
                <= inject_Z (Z.pos m2) * pow2 e2)%Q)
    by (apply Qmult_le_compat_r; [assumption|lra]).
  lra.
Qed.

(** [max] of two normal numbers is one of them and not below either. *)
Lemma float_max_val (m1 m2 : positive) (e1 e2 : Z) :
  2 ^ 52 <= Z.pos m1 < 2 ^ 53 -> 2 ^ 52 <= Z.pos m2 < 2 ^ 53 ->
  exists m e,
    float_max (S754_finite false m1 e1) (S754_finite false m2 e2)
    = S754_finite false m e
    /\ ((m = m1 /\ e = e1) \/ (m = m2 /\ e = e2))
    /\ (val m1 e1 <= val m e)%Q /\ (val m2 e2 <= val m e)%Q.
Proof.
  intros Hm1 Hm2. unfold float_max, SFltb, SFcompare.
  destruct (Z.compare_spec e1 e2) as [Heq|Hlt|Hgt].
  - subst e2. change (Pos.compare_cont Eq m1 m2) with (m1 ?= m2)%positive.
    pose proof (pow2_pos e1) as Hp.
    destruct (Pos.compare_spec m1 m2) as [E|L|G].
    + subst m2. exists m1, e1. split; [reflexivity|].
      split; [left; split; reflexivity|]. split; lra.
    + exists m2, e1. split; [reflexivity|]. split; [right; split; reflexivity|].
      split; [|lra]. unfold val. apply Qmult_le_compat_r; [|lra].
      rewrite <- Zle_Qle. lia.
    + exists m1, e1. split; [reflexivity|]. split; [left; split; reflexivity|].
      split; [lra|]. unfold val. apply Qmult_le_compat_r; [|lra].
      rewrite <- Zle_Qle. lia.
  - exists m2, e2. split; [reflexivity|]. split; [right; split; reflexivity|].
    pose proof (val_lt_exp m1 m2 e1 e2 Hm1 Hm2 Hlt). split; lra.
  - exists m1, e1. split; [reflexivity|]. split; [left; split; reflexivity|].
    pose proof (val_lt_exp m2 m1 e2 e1 Hm2 Hm1 ltac:(lia)). split; lra.
Qed.

(** [b * s] for an integer below [2 ^ 31] and a normal [s] of moderate
    exponent: one rounding below the exact product at most. *)
Lemma int_mul_float_val (b : Z) (ms : positive) (es : Z) :
  0 < b < 2 ^ 31 ->
  2 ^ 52 <= Z.pos ms < 2 ^ 53 -> -83 <= es <= -21 ->
  exists m e,
    int_mul_float b (S754_finite false ms es) = Ok (S754_finite false m e)
    /\ (inject_Z b * val ms es <= val m e * (1 + eps))%Q.
Proof.
  intros Hb Hms Hes.
  destruct (float_of_int_exact b Hb)
    as (mx & ex & Hx & Hmx & Hex & _ & Hvx).
  unfold int_mul_float. rewrite Hx. cbn [res_bind SFmul xorb].
  assert (HP : 2 ^ 104 <= Z.pos (mx * ms) < 2 ^ 106).
  { rewrite Pos2Z.inj_mul.
    change (2 ^ 104) with (2 ^ 52 * 2 ^ 52).
    change (2 ^ 106) with (2 ^ 53 * 2 ^ 53). nia. }
  pose proof (Zdigits2_ge (mx * ms) 105
                ltac:(change (105 - 1) with 104; lia) ltac:(lia)) as Hd1.
  pose proof (Zdigits2_le (mx * ms) 106 ltac:(lia) ltac:(lia)) as Hd2.
  destruct (round_aux_val (Z.pos (mx * ms)) (ex + es) loc_Exact)
    as (m & e & Hr & Hm & He & Hv & _); try lia.
  rewrite Hr. exists m, e. split; [reflexivity|].
  assert (E : (inject_Z (Z.pos (mx * ms)) * pow2 (ex + es)
               == inject_Z b * val ms es)%Q).
  { rewrite <- Hvx. unfold val.
    rewrite Pos2Z.inj_mul, inject_Z_mult, pow2_add. ring. }
  lra.
Qed.

(** [int] of a positive float is not below an integer that the float is not
    below. *)
Lemma int_of_float_ge (m : positive) (e k : Z) :
  (inject_Z k <= val m e)%Q ->
  exists z, int_of_float (S754_finite false m e) = Ok z /\ k <= z.
Proof.
  intros Hk. unfold int_of_float. cbn [cond_Zopp].
  eexists. split; [reflexivity|].
  destruct (Z.leb_spec 0 e) as [He|He].
  - unfold val in Hk. rewrite pow2_Z, <- inject_Z_mult in Hk by exact He.
    now rewrite <- Zle_Qle in Hk.
  - assert (H0 : 0 < 2 ^ (- e)) by (apply Z.pow_pos_nonneg; lia).
    apply Z.div_le_lower_bound; [exact H0|].
    rewrite Zle_Qle, inject_Z_mult.
    assert (Hone : (pow2 e * inject_Z (2 ^ (- e)) == 1)%Q).
    { rewrite <- pow2_Z by lia. rewrite <- pow2_add.
      replace (e + - e) with 0 by lia. reflexivity. }
    assert (Hp : (0 < inject_Z (2 ^ (- e)))%Q)
      by (change 0%Q with (inject_Z 0); now rewrite <- Zlt_Qlt).
    unfold val in Hk.
    assert (H1 : (inject_Z k * inject_Z (2 ^ (- e))
                  <= inject_Z (Z.pos m) * pow2 e * inject_Z (2 ^ (- e)))%Q)
      by (apply Qmult_le_compat_r; [exact Hk|lra]).
    assert (H2 : (inject_Z (Z.pos m) * pow2 e * inject_Z (2 ^ (- e))
                  == inject_Z (Z.pos m))%Q)
      by (rewrite <- Qmult_assoc, Hone; ring).
    lra.
Qed.

(** One axis of the scale step: with a factor not below the quotient of
    this axis, the scaled side is at most one pixel short. *)
Lemma scaled_side_ge (a b : Z) (mq ms : positive) (eq es : Z) :
  0 < a < 2 ^ 31 -> 0 < b < 2 ^ 31 ->
  2 ^ 52 <= Z.pos ms < 2 ^ 53 -> -83 <= es <= -21 ->
  (inject_Z a <= inject_Z b * val mq eq * ((1 + eps) * (1 + eps)))%Q ->
  (val mq eq <= val ms es)%Q ->
  exists x z,
    int_mul_float b (S754_finite false ms es) = Ok x
    /\ int_of_float x = Ok z /\ a - 1 <= z.
Proof.
  intros Ha Hb Hms Hes Hq Hle.
  destruct (int_mul_float_val b ms es Hb Hms Hes) as (m & e & Hx & Hv).
  assert (HB : (0 < inject_Z b)%Q)
    by (change 0%Q with (inject_Z 0); rewrite <- Zlt_Qlt; lia).
  assert (H1 : (inject_Z b * val mq eq <= inject_Z b * val ms es)%Q)
    by (apply Qmult_le_l; assumption).
  assert (Ha1 : (inject_Z a < 2147483648)%Q).
  { change 2147483648%Q with (inject_Z (2 ^ 31)). rewrite <- Zlt_Qlt. lia. }
  assert (Hk : (inject_Z (a - 1) <= val m e)%Q).
  { unfold Z.sub. rewrite inject_Z_plus. change (inject_Z (- (1))) with (-1)%Q.
    set (A := inject_Z a) in *. set (V := val m e) in *.
    set (X := (inject_Z b * val mq eq)%Q) in *.
    set (Y := (inject_Z b * val ms es)%Q) in *.
    unfold eps in *. 
    assert (H2 : (X * ((1 + (1 # 4503599627370496))
                       * (1 + (1 # 4503599627370496)))
                  <= Y * ((1 + (1 # 4503599627370496))
                          * (1 + (1 # 4503599627370496))))%Q)
      by (apply Qmult_le_compat_r; lra).
    lra. }
  destruct (int_of_float_ge m e (a - 1) Hk) as (z & Hz & Hkz).
  exists (S754_finite false m e), z. now repeat split.
Qed.

(** The scale step on sides below [2 ^ 31]: it returns, and each scaled
    side is at most one pixel short of the side of the box. *)
Lemma scaled_size_ge (iw ih target_w target_h : Z) :
  0 < iw < 2 ^ 31 -> 0 < ih < 2 ^ 31 ->
  0 < target_w < 2 ^ 31 -> 0 < target_h < 2 ^ 31 ->
  exists nw nh,
    scaled_size iw ih target_w target_h = Ok (nw, nh)
    /\ target_w - 1 <= nw /\ target_h - 1 <= nh.
Proof.
  intros Hiw Hih Htw Hth.
  destruct (int_truediv_val target_w iw Htw Hiw)
    as (m1 & e1 & Hq1 & Hm1 & He1 & Hv1).
  destruct (int_truediv_val target_h ih Hth Hih)
    as (m2 & e2 & Hq2 & Hm2 & He2 & Hv2).
  destruct (float_max_val m1 m2 e1 e2 Hm1 Hm2)
    as (m & e & Hmax & Hsel & Hle1 & Hle2).
  assert (Hm : 2 ^ 52 <= Z.pos m < 2 ^ 53)
    by (destruct Hsel as [[-> _]|[-> _]]; assumption).
  assert (He : -83 <= e <= -21)
    by (destruct Hsel as [[_ ->]|[_ ->]]; assumption).
  destruct (scaled_side_ge target_w iw m1 m e1 e Htw Hiw Hm He Hv1 Hle1)
    as (x & nw & Hx & Hnw & Hw).
  destruct (scaled_side_ge target_h ih m2 m e2 e Hth Hih Hm He Hv2 Hle2)
    as (y & nh & Hy & Hnh & Hh).
  exists nw, nh. unfold scaled_size.
  rewrite Hq1, Hq2. cbn [res_bind]. rewrite Hmax, Hx. cbn [res_bind].
  rewrite Hnw. cbn [res_bind]. rewrite Hy. cbn [res_bind].
  rewrite Hnh. cbn [res_bind]. split; [reflexivity|]. split; assumption.
Qed.

(** ** A box of the size of the image *)

Lemma shr_1_even (k : Z) :
  0 <= k ->
  shr_1 (Build_shr_record (2 * k) false false) = Build_shr_record k false false.
Proof. intros Hk. destruct k as [|p|p]; [reflexivity|reflexivity|lia]. Qed.

Lemma iter_pos_shr_exact (n : positive) (k : Z) :
  0 <= k ->
  iter_pos shr_1 n (Build_shr_record (k * 2 ^ Z.pos n) false false)
  = Build_shr_record k false false.
Proof.
  revert k. induction n as [n IH|n IH|]; intros k Hk; cbn [iter_pos].
  - assert (H0 : 0 < 2 ^ Z.pos n) by (apply Z.pow_pos_nonneg; lia).
    replace (k * 2 ^ Z.pos n~1) with (2 * (k * 2 ^ Z.pos n * 2 ^ Z.pos n)).
    + rewrite shr_1_even by nia. rewrite IH by nia. now apply IH.
    + replace (Z.pos n~1) with (1 + Z.pos n + Z.pos n) by lia.
      rewrite !Z.pow_add_r by lia. lia.
  - assert (H0 : 0 < 2 ^ Z.pos n) by (apply Z.pow_pos_nonneg; lia).
    replace (k * 2 ^ Z.pos n~0) with (k * 2 ^ Z.pos n * 2 ^ Z.pos n).
    + rewrite IH by nia. now apply IH.
    + replace (Z.pos n~0) with (Z.pos n + Z.pos n) by lia.
      rewrite !Z.pow_add_r by lia. lia.
  - replace (k * 2 ^ 1) with (2 * k) by lia. now apply shr_1_even.
Qed.

(** Rounding a normal mantissa followed by zeros gives it back. *)
Lemma round_aux_exact (T : positive) (n ex : Z) :
  2 ^ 52 <= Z.pos T < 2 ^ 53 -> 0 <= n ->
  -1074 <= ex + n -> ex + n <= 970 ->
  binary_round_aux prec64 emax64 false (Z.pos T * 2 ^ n) ex loc_Exact
  = S754_finite false T (ex + n).
Proof.
  intros HT Hn Hlo Hhi.
  assert (H0 : 0 < 2 ^ n) by (apply Z.pow_pos_nonneg; lia).
  assert (Hd : Zdigits2 (Z.pos T * 2 ^ n) = 53 + n).
  { apply Zdigits2_unique; [|lia].
    replace (53 + n - 1) with (52 + n) by lia.
    rewrite !Z.pow_add_r by lia. nia. }
  unfold binary_round_aux, shr_fexp. rewrite Hd.
  replace (fexp prec64 emax64 (53 + n + ex) - ex) with n
    by (unfold fexp, emin, prec64, emax64; lia).
  assert (Hs : shr (shr_record_of_loc (Z.pos T * 2 ^ n) loc_Exact) ex n
               = (Build_shr_record (Z.pos T) false false, ex + n)).
  { unfold shr. destruct n as [|p|p]; try lia.
    - cbn [shr_record_of_loc]. rewrite Z.mul_1_r, Z.add_0_r. reflexivity.
    - cbn [shr_record_of_loc]. now rewrite iter_pos_shr_exact by lia. }
  rewrite Hs. cbn [shr_m loc_of_shr_record round_nearest_even].
  assert (Hd1 : Zdigits2 (Z.pos T) = 53)
    by (apply Zdigits2_unique; [change (53 - 1) with 52|]; lia).
  rewrite Hd1.
  replace (fexp prec64 emax64 (53 + (ex + n)) - (ex + n)) with 0
    by (unfold fexp, emin, prec64, emax64; lia).
  rewrite shr_zero. cbn [shr_record_of_loc shr_m].
  replace (ex + n <=? emax64 - prec64) with true
    by (symmetry; apply Z.leb_le; unfold emax64, prec64; lia).
  reflexivity.
Qed.

(** [a / a] is 1.0. *)
Lemma int_truediv_same (a : Z) :
  0 < a < 2 ^ 31 -> int_truediv a a = Ok float_one.
Proof.
  intros [Ha0 Ha1]. destruct a as [|p|p]; try lia.
  unfold int_truediv. cbn [Z.eqb exact_int SFdiv xorb].
  unfold SFdiv_core_binary.
  replace (Zdigits2 (Z.pos p) + 0 - (Zdigits2 (Z.pos p) + 0)) with 0 by lia.
  change (Z.min (fexp prec64 emax64 0) (0 - 0)) with (-53).
  change (0 - 0 - -53) with 53.
  cbv iota. rewrite Z.shiftl_mul_pow2 by lia.
  pose proof (Z.div_eucl_eq (Z.pos p * 2 ^ 53) (Z.pos p) ltac:(lia)) as Hdm.
  pose proof (Z.mod_pos_bound (Z.pos p * 2 ^ 53) (Z.pos p) ltac:(lia)) as Hmb.
  unfold Z.modulo in Hmb.
  destruct (Z.div_eucl (Z.pos p * 2 ^ 53) (Z.pos p)) as [q r].
  assert (Hq : q = 2 ^ 53 /\ r = 0).
  { generalize dependent (2 ^ 53). intros c Hdm.
    assert (c - q = 0) by nia. split; nia. }
  destruct Hq as [-> ->].
  replace (new_location (Z.pos p) 0) with loc_Exact
    by (unfold new_location, new_location_even, new_location_odd;
        now destruct (Z.even (Z.pos p))).
  reflexivity.
Qed.

(** [b * 1.0] is [b]. *)
Lemma int_mul_one (b : Z) :
  0 < b < 2 ^ 31 ->
  exists x, int_mul_float b float_one = Ok x /\ int_of_float x = Ok b.
Proof.
  intros Hb.
  destruct (float_of_int_exact b Hb)
    as (mx & ex & Hx & Hmx & Hex & Hm & _).
  unfold int_mul_float. rewrite Hx. unfold float_one.
  cbn [res_bind SFmul xorb].
  rewrite Pos2Z.inj_mul.
  change (Z.pos 4503599627370496) with (2 ^ 52).
  rewrite (round_aux_exact mx 52 (ex + -52)) by lia.
  eexists. split; [reflexivity|].
  unfold int_of_float. cbn [cond_Zopp].
  replace (ex + -52 + 52) with ex by lia.
  destruct (Z.leb_spec 0 ex); [lia|].
  rewrite Hm. f_equal. apply Z.div_mul.
  pose proof (Z.pow_pos_nonneg 2 (- ex)). lia.
Qed.

(** The scale step leaves the sides of an image as they are when the box
    has the size of the image. *)
Lemma scaled_size_same (iw ih : Z) :
  0 < iw < 2 ^ 31 -> 0 < ih < 2 ^ 31 ->
  scaled_size iw ih iw ih = Ok (iw, ih).
Proof.
  intros Hw Hh. unfold scaled_size.
  rewrite (int_truediv_same iw Hw), (int_truediv_same ih Hh).
  cbn [res_bind].
  change (float_max float_one float_one) with float_one.
  destruct (int_mul_one iw Hw) as (x & Hx & Hxi).
  destruct (int_mul_one ih Hh) as (y & Hy & Hyi).
  rewrite Hx. cbn [res_bind]. rewrite Hxi. cbn [res_bind].
  rewrite Hy. cbn [res_bind]. rewrite Hyi. reflexivity.
Qed.

(** ** ImageFitter on binary64 *)

(** X19.  For an image and a box with sides from 1 to [2 ^ 31 - 1] the
    scale step returns, and rounding costs at most one pixel on each axis:
    the scaled width is at least the width of the box less one, and the
    scaled height at least the height of the box less one. *)
Theorem scaled_size_one_short (iw ih target_w target_h : Z) :
  0 < iw < 2 ^ 31 -> 0 < ih < 2 ^ 31 ->
  0 < target_w < 2 ^ 31 -> 0 < target_h < 2 ^ 31 ->
  exists nw nh,
    scaled_size iw ih target_w target_h = Ok (nw, nh)
    /\ target_w - 1 <= nw /\ target_h - 1 <= nh.
Proof. apply scaled_size_ge. Qed.

Lemma scaled_size_one_short_witness :
  exists nw nh,
    scaled_size 624 312 360 180 = Ok (nw, nh)
    /\ 360 - 1 <= nw /\ 180 - 1 <= nh.
Proof. apply scaled_size_one_short; lia. Defined.

(** X20.  For an image with sides from 1 to [2 ^ 31 - 1] and a box with
    sides from 2 to [2 ^ 31 - 1] that passes the pixel limit of
    [Image.crop], [fit_cover] returns an image of exactly the size of the
    box whenever the resampling routine answers at the scaled size, that
    is, when there is memory for the scaled image. *)
Theorem fit_cover_returns (LANCZOS : Resampler) (im : Image)
  (target_w target_h : Z) :
  0 < fst (size im) < 2 ^ 31 -> 0 < snd (size im) < 2 ^ 31 ->
  2 <= target_w < 2 ^ 31 -> 2 <= target_h < 2 ^ 31 ->
  target_w * target_h <= 2 * MAX_IMAGE_PIXELS ->
  (forall nw nh,
     scaled_size (fst (size im)) (snd (size im)) target_w target_h
       = Ok (nw, nh) ->
     exists px, LANCZOS im (nw, nh) = Ok px) ->
  exists out,
    fit_cover LANCZOS (Some im) target_w target_h = Ok (Some out)
    /\ size out = (target_w, target_h).
Proof.
  intros Hw Hh Htw Hth Hbox Hmem.
  destruct (scaled_size_ge (fst (size im)) (snd (size im)) target_w target_h)
    as (nw & nh & Hs & Hnw & Hnh); try lia.
  apply (fit_cover_exact_size LANCZOS im target_w target_h nw nh);
    try assumption; try lia.
  now apply Hmem.
Qed.

Lemma fit_cover_returns_witness :
  exists out,
    fit_cover NEAREST (Some (mkImage (624, 312) (fun _ _ => grey))) 360 180
    = Ok (Some out)
    /\ size out = (360, 180).
Proof.
  apply (fit_cover_returns NEAREST (mkImage (624, 312) (fun _ _ => grey)));
    cbn [size fst snd]; try lia.
  - vm_compute. discriminate.
  - intros nw nh _. eexists. reflexivity.
Defined.

(** X21.  For an image with sides from 1 to [2 ^ 31 - 1] that passes the
    pixel limit of [Image.crop], and the box of its own size, the scale
    step is exact and [fit_cover] returns the image unchanged: the same
    size and, at every position, the same pixel.  The resampling routine
    is not called. *)
Theorem fit_cover_same_size (LANCZOS : Resampler) (im : Image) :
  0 < fst (size im) < 2 ^ 31 -> 0 < snd (size im) < 2 ^ 31 ->
  fst (size im) * snd (size im) <= 2 * MAX_IMAGE_PIXELS ->
  scaled_size (fst (size im)) (snd (size im)) (fst (size im))
    (snd (size im)) = Ok (size im)
  /\ exists out,
       fit_cover LANCZOS (Some im) (fst (size im)) (snd (size im))
       = Ok (Some out)
       /\ size out = size im
       /\ forall x y, 0 <= x < fst (size im) -> 0 <= y < snd (size im) ->
            getpixel out x y = getpixel im x y.
Proof.
  intros Hw Hh Hbox. unfold fit_cover, Image_resize.
  destruct (size im) as [iw ih] eqn:Hsz. cbn [fst snd] in *.
  pose proof (scaled_size_same iw ih Hw Hh) as Hs.
  split; [exact Hs|].
  destruct (Z.leb_spec iw 0); [lia|]. destruct (Z.leb_spec ih 0); [lia|].
  cbn [orb]. rewrite Hs. cbn [res_bind]. rewrite !Z.eqb_refl.
  cbn [andb res_bind]. rewrite !Z.sub_diag.
  change (Z.max 0 (0 / 2)) with 0. unfold Image_crop. rewrite Hsz.
  destruct (Z.ltb_spec (0 + iw) 0); [lia|].
  destruct (Z.ltb_spec (0 + ih) 0); [lia|].
  cbn [orb]. rewrite !Z.add_0_l, !Z.sub_0_r.
  rewrite bomb_check_passes by lia.
  cbn [res_bind]. eexists. split; [reflexivity|].
  cbn [size getpixel]. split; [reflexivity|].
  intros x y Hx Hy. rewrite !Z.add_0_r.
  destruct (Z.leb_spec 0 x); [|lia]. destruct (Z.ltb_spec x iw); [|lia].
  destruct (Z.leb_spec 0 y); [|lia]. destruct (Z.ltb_spec y ih); [|lia].
  reflexivity.
Qed.

Lemma fit_cover_same_size_witness :
  scaled_size (fst (size grey_image)) (snd (size grey_image))
    (fst (size grey_image)) (snd (size grey_image)) = Ok (size grey_image)
  /\ exists out,
       fit_cover NEAREST (Some grey_image) (fst (size grey_image))
         (snd (size grey_image)) = Ok (Some out)
       /\ size out = size grey_image
       /\ forall x y,
            0 <= x < fst (size grey_image) ->
            0 <= y < snd (size grey_image) ->
            getpixel out x y = getpixel grey_image x y.
Proof.
  apply (fit_cover_same_size NEAREST grey_image); cbn [size grey_image fst snd];
    try lia.
  vm_compute. discriminate.
Defined.
